(** * next: a deterministic, SQLite-backed job ledger

    Shallow embedding of [main.go] (commands [enqueue], [claim], [done],
    [status], [reset]) and of the SQL statements those commands send to
    SQLite.  The table [queue] is a list of rows in rowid order; every SQL
    statement of the source is a function on that list.  What the operating
    system, the Go standard library and SQLite's date functions provide
    (absolute paths, SHA-256, reading a file, formatting an instant,
    [DATETIME]) is a field of the record [Host]. *)

From Stdlib Require Import String Ascii ZArith List Bool Lia.
From Stdlib Require Import Sorting.Permutation Sorting.Sorted.
From Stdlib Require Import Structures.OrderedTypeEx.
Import ListNotations.
Local Open Scope string_scope.
Local Open Scope Z_scope.
Local Open Scope list_scope.

(* ================================================================== *)
(** ** TEXT comparison (SQLite's BINARY collation)

    [path_hash > ?] and [ORDER BY path_hash] compare TEXT values byte by
    byte, a proper prefix being smaller: that is [String.compare]. *)

Definition text_lt (a b : string) : Prop := String.compare a b = Lt.
Definition text_le (a b : string) : Prop := String.compare a b <> Gt.

Definition text_ltb (a b : string) : bool := String.ltb a b.
Definition text_leb (a b : string) : bool := String.leb a b.

(* ================================================================== *)
(** ** The table [queue] *)

Record Row : Type := mkRow {
  path         : string;          (* TEXT NOT NULL *)
  path_hash    : string;          (* TEXT NOT NULL *)
  content_hash : string;          (* TEXT NOT NULL *)
  treatment    : string;          (* TEXT NOT NULL *)
  done_at      : option string;   (* TEXT, NULL = pending *)
  result       : option string;   (* TEXT *)
  next_at      : option string    (* TEXT *)
}.

Definition table := list Row.

(** [done_at IS NULL] *)
Definition is_null {A : Type} (v : option A) : bool :=
  match v with None => true | Some _ => false end.

Definition pending (r : Row) : bool := is_null (done_at r).

(** PRIMARY KEY (path_hash, treatment) *)
Definition pk (r : Row) : string * string := (path_hash r, treatment r).

Definition pk_matches (ph t : string) (r : Row) : bool :=
  String.eqb (path_hash r) ph && String.eqb (treatment r) t.

Definition pk_unique (db : table) : Prop := NoDup (map pk db).

(** The state of a ledger filled by [enqueue]: the primary key holds and no
    hash is empty (a hash is 64 hexadecimal digits). *)
Definition ledger_ok (db : table) : Prop :=
  pk_unique db /\ Forall (fun r => path_hash r <> "") db.

(** What a process reports: a value, or an exit status with the message
    written to standard error. *)
Inductive outcome (A : Type) : Type :=
| Ok (a : A)
| Exit (code : Z) (stderr : string).
Arguments Ok {A} a.
Arguments Exit {A} code stderr.

(* ================================================================== *)
(** ** SELECT ... ORDER BY path_hash LIMIT ? *)

(** [ORDER BY key]: a stable sort, rows that compare equal keep their scan
    order. *)
Section OrderBy.
Context {A : Type} (key : A -> string).

Fixpoint insert_by (r : A) (l : list A) : list A :=
  match l with
  | [] => [r]
  | x :: tl =>
      if text_leb (key r) (key x) then r :: l
      else x :: insert_by r tl
  end.

Definition order_by (l : list A) : list A := fold_right insert_by [] l.

(** Ascending, and strictly ascending, in the key. *)
Definition key_le (a b : A) : Prop := text_le (key a) (key b).
Definition key_lt (a b : A) : Prop := text_lt (key a) (key b).
End OrderBy.

Definition order_by_path_hash (l : list Row) : list Row :=
  order_by path_hash l.

(** [LIMIT n]: SQLite puts no upper bound on the rows when [n] is
    negative. *)
Definition sql_limit {A : Type} (n : Z) (l : list A) : list A :=
  if n <? 0 then l else firstn (Z.to_nat n) l.

(** WHERE treatment = ? AND done_at IS NULL AND path_hash > ? *)
Definition claim_where (t cursor : string) (r : Row) : bool :=
  String.eqb (treatment r) t && pending r && text_ltb cursor (path_hash r).

Definition claim_query (t cursor : string) (n : Z) (db : table) : list Row :=
  sql_limit n (order_by_path_hash (filter (claim_where t cursor) db)).

Record ClaimResult : Type := mkClaimResult {
  Path     : string;
  PathHash : string
}.

Definition scan_claim (r : Row) : ClaimResult :=
  {| Path := path r; PathHash := path_hash r |}.

(** [claimCmd]: flags [--treatment], [--cursor], [--n]; [io_err] tells
    whether [db.Query] (or the iteration) reported an engine error. *)
Definition claimCmd (io_err : bool) (t cursor : string) (n : Z) (db : table)
  : outcome (list ClaimResult) :=
  if io_err then Exit 1 "query error"
  else Ok (map scan_claim (claim_query t cursor n db)).

(** The worker loop of the README: claim, process, and claim again with the
    hash of the last row returned as the next cursor, until a claim comes
    back empty.  [fuel] bounds the number of claims. *)
Fixpoint cursor_walk (fuel : nat) (t cursor : string) (n : Z) (db : table)
  : list ClaimResult :=
  match fuel with
  | O => []
  | S fuel' =>
      match claimCmd false t cursor n db with
      | Exit _ _ => []
      | Ok batch =>
          match batch with
          | [] => []
          | first :: more =>
              batch ++ cursor_walk fuel' t (PathHash (last more first)) n db
          end
      end
  end.

(** An item returned for treatment [t] after [cursor] comes from the table:
    it is the (path, path_hash) of a pending row of [t] whose hash is greater
    than the cursor. *)
Definition claimed_from (db : table) (t cursor : string) (cr : ClaimResult)
  : Prop :=
  exists r, In r db /\ scan_claim r = cr /\ done_at r = None
            /\ treatment r = t /\ text_lt cursor (PathHash cr).

(** The pending rows of a treatment, in table order. *)
Definition pending_of (t : string) (db : table) : list Row :=
  filter (fun r => String.eqb (treatment r) t && pending r) db.

(* ================================================================== *)
(** ** The host: operating system, Go library and SQLite functions *)

Record Host : Type := mkHost {
  Abs             : string -> option string;  (* filepath.Abs *)
  pathHash        : string -> string;         (* hex(sha256(s)) *)
  fileHash        : string -> option string;  (* hex(sha256(file)), or error *)
  format_rfc3339  : Z -> string;              (* t.UTC().Format(time.RFC3339) *)
  sqlite_datetime : Z -> string -> option string
      (* DATETIME('now', modifier) at the instant given; NULL when SQLite
         does not recognise the modifier *)
}.

(* ================================================================== *)
(** ** enqueue *)

(** INSERT ... ON CONFLICT(path_hash, treatment) DO UPDATE SET ...: the
    right-hand sides read the row as it was before the update. *)
Definition on_conflict_update (absPath ch : string) (old : Row) : Row :=
  let same := String.eqb (content_hash old) ch in
  {| path         := absPath;
     path_hash    := path_hash old;
     content_hash := ch;
     treatment    := treatment old;
     done_at      := if same then done_at old else None;
     result       := if same then result old else None;
     next_at      := if same then next_at old else None |}.

Definition upsert (absPath ph ch t : string) (db : table) : table :=
  if existsb (pk_matches ph t) db
  then map (fun r => if pk_matches ph t r
                     then on_conflict_update absPath ch r else r) db
  else db ++ [mkRow absPath ph ch t None None None].

Section Enqueue.
Variable h : Host.
(** [io_err k]: [db.Exec] returns an error for input line [k]. *)
Variable io_err : nat -> bool.
Variable t : string.

Fixpoint enqueue_loop (lines : list string) (k : nat) (count : Z)
         (db : table) : table * outcome Z :=
  match lines with
  | [] => (db, Ok count)
  | line :: rest =>
      if String.eqb line "" then enqueue_loop rest (S k) count db
      else
        match Abs h line with
        | None => enqueue_loop rest (S k) count db
        | Some absPath =>
            let ph := pathHash h absPath in
            match fileHash h absPath with
            | None => enqueue_loop rest (S k) count db
            | Some ch =>
                if io_err k
                then (db, Exit 1 (String.append "insert failed for " absPath))
                else enqueue_loop rest (S k) (count + 1)
                                  (upsert absPath ph ch t db)
            end
        end
  end.

(** [scan_err]: [scanner.Err()] is not nil after the loop. *)
Definition doEnqueueCmd (scan_err : bool) (lines : list string)
           (db : table) : table * outcome Z :=
  match enqueue_loop lines 0 0 db with
  | (db', Ok count) =>
      if scan_err then (db', Exit 1 "error reading stdin")
      else (db', Ok count)
  | failed => failed
  end.

(** The input lines that reach [db.Exec], as absolute paths. *)
Definition accepted (line : string) : option string :=
  if String.eqb line "" then None
  else match Abs h line with
       | None => None
       | Some absPath =>
           match fileHash h absPath with
           | None => None
           | Some _ => Some absPath
           end
       end.

Fixpoint accepted_lines (lines : list string) : list string :=
  match lines with
  | [] => []
  | line :: rest =>
      match accepted line with
      | Some absPath => absPath :: accepted_lines rest
      | None => accepted_lines rest
      end
  end.
End Enqueue.


(* ================================================================== *)
(** ** done *)

(** UPDATE queue SET done_at = ?, result = ?, next_at = ...
     WHERE path_hash = ? AND treatment = ? *)
Definition update_done (now res : string) (nxt : option string)
           (ph t : string) (db : table) : table :=
  map (fun r =>
         if pk_matches ph t r
         then {| path := path r; path_hash := path_hash r;
                 content_hash := content_hash r; treatment := treatment r;
                 done_at := Some now; result := Some res; next_at := nxt |}
         else r) db.

(** [doneCmd]: flags [--path], [--result], [--revisit], [--treatment].
    [goNow] is the instant read by [time.Now()], [sqlNow] the instant
    SQLite reads for ['now'] while it runs the UPDATE. *)
Definition doneCmd (h : Host) (io_err : bool) (goNow sqlNow : Z)
           (path_flag result_flag revisit t : string) (db : table)
  : table * outcome unit :=
  if String.eqb path_flag "" then (db, Exit 1 "error: --path required")
  else
    match Abs h path_flag with
    | None => (db, Exit 1 "path error")
    | Some absPath =>
        let ph := pathHash h absPath in
        let now := format_rfc3339 h goNow in
        let nxt := if String.eqb revisit "" then None
                   else sqlite_datetime h sqlNow revisit in
        if io_err then (db, Exit 1 "update error")
        else (update_done now result_flag nxt ph t db, Ok tt)
    end.

(* ================================================================== *)
(** ** status *)

Record StatusResult : Type := mkStatusResult {
  Treatment : string;
  Pending   : Z;
  Done      : Z
}.

(** The expressions that occur as result columns and ORDER BY terms of the
    status statement. *)
Inductive expr : Type :=
| Col (name : string)
| Lit (text : string)
| SumOf (e : expr)
| EqE (a b : expr).

Fixpoint expr_eqb (a b : expr) : bool :=
  match a, b with
  | Col x, Col y => String.eqb x y
  | Lit x, Lit y => String.eqb x y
  | SumOf x, SumOf y => expr_eqb x y
  | EqE x1 x2, EqE y1 y2 => expr_eqb x1 y1 && expr_eqb x2 y2
  | _, _ => false
  end.

(** A compound SELECT: the result columns of each arm of the UNION ALL, and
    the ORDER BY terms that follow the last arm. *)
Record compound_select : Type := mkCompound {
  arms     : list (list expr);
  order_by_terms : list expr
}.

(** SQLite resolves an ORDER BY term of a compound SELECT against the result
    columns: "ORDER BY expressions that are not aliases to output columns
    must be exactly the same as an expression used as an output column".
    The arms below carry no alias. *)
Definition order_term_resolves (q : compound_select) (e : expr) : bool :=
  existsb (fun arm => existsb (expr_eqb e) arm) (arms q).

Definition ordinal (k : nat) : string :=
  match k with
  | 0%nat => "1st" | 1%nat => "2nd" | 2%nat => "3rd" | _ => "nth"
  end.

Fixpoint resolve_order_by (q : compound_select) (k : nat) (terms : list expr)
  : option string :=
  match terms with
  | [] => None
  | e :: rest =>
      if order_term_resolves q e then resolve_order_by q (S k) rest
      else Some (String.append (ordinal k)
             " ORDER BY term does not match any column in the result set")
  end.

(** [sqlite3_prepare] on a compound SELECT: the error, if any. *)
Definition prepare_error (q : compound_select) : option string :=
  resolve_order_by q 0 (order_by_terms q).

(** SELECT treatment, pending, done FROM stats
    UNION ALL
    SELECT 'TOTAL', SUM(pending), SUM(done) FROM stats
    ORDER BY (treatment = 'TOTAL'), treatment *)
Definition status_statement : compound_select :=
  {| arms := [ [Col "treatment"; Col "pending"; Col "done"];
               [Lit "TOTAL"; SumOf (Col "pending"); SumOf (Col "done")] ];
     order_by_terms := [ EqE (Col "treatment") (Lit "TOTAL");
                         Col "treatment" ] |}.

Definition count_where (f : Row -> bool) (db : table) : Z :=
  Z.of_nat (length (filter f db)).

Definition in_treatment (t : string) (r : Row) : bool :=
  String.eqb (treatment r) t.

(** The treatments of the rows selected: one group per treatment. *)
Definition group_keys (db : table) : list string :=
  order_by (fun t => t) (nodup string_dec (map treatment db)).

(** The CTE [stats]: per treatment, SUM(CASE WHEN done_at IS NULL ...) and
    SUM(CASE WHEN done_at IS NOT NULL ...). *)
Definition stats (filter_flag : string) (db : table)
  : list (string * Z * Z) :=
  let selected := if String.eqb filter_flag "" then db
                  else filter (in_treatment filter_flag) db in
  map (fun t =>
         (t,
          count_where (fun r => in_treatment t r && pending r) selected,
          count_where (fun r => in_treatment t r && negb (pending r))
                      selected))
      (group_keys selected).

(** SUM over no row is NULL. *)
Definition sql_sum (l : list Z) : option Z :=
  match l with
  | [] => None
  | _ => Some (fold_right Z.add 0 l)
  end.

Definition status_rows (filter_flag : string) (db : table)
  : list (string * option Z * option Z) :=
  let s := stats filter_flag db in
  let all := map (fun '(t, p, d) => (t, Some p, Some d)) s
             ++ [("TOTAL", sql_sum (map (fun '(_, p, _) => p) s),
                           sql_sum (map (fun '(_, _, d) => d) s))] in
  let by_treatment := order_by (fun '(t, _, _) => t) all in
  let is_total := fun '(t, _, _) => String.eqb t "TOTAL" in
  filter (fun x : string * option Z * option Z => negb (is_total x))
         by_treatment
  ++ filter is_total by_treatment.

(** [rows.Scan(&t, &pending, &done)] into [int]: a NULL makes Scan fail and
    the loop [continue]s. *)
Fixpoint scan_status (rows : list (string * option Z * option Z))
  : list StatusResult :=
  match rows with
  | [] => []
  | (t, Some p, Some d) :: rest => mkStatusResult t p d :: scan_status rest
  | _ :: rest => scan_status rest
  end.

(** [statusCmd]: flag [--treatment] (empty = all). *)
Definition statusCmd (io_err : bool) (filter_flag : string) (db : table)
  : outcome (list StatusResult) :=
  match prepare_error status_statement with
  | Some msg => Exit 1 (String.append "query error: " msg)
  | None =>
      if io_err then Exit 1 "query error"
      else Ok (scan_status (status_rows filter_flag db))
  end.

(* ================================================================== *)
(** ** reset *)

(** DELETE FROM queue WHERE treatment = ?, with [RowsAffected]. *)
Definition delete_treatment (t : string) (db : table) : table * Z :=
  (filter (fun r => negb (in_treatment t r)) db,
   count_where (in_treatment t) db).

Inductive reset_report : Type :=
| Canceled
| Deleted (n : Z).

(** [resetCmd]: flags [--treatment], [--yes]; [response] is the word read
    from standard input when [--yes] is absent. *)
Definition resetCmd (io_err : bool) (t : string) (yes : bool)
           (response : string) (db : table) : table * outcome reset_report :=
  if String.eqb t "" then (db, Exit 1 "error: --treatment required")
  else if negb yes
          && negb (String.eqb response "y" || String.eqb response "Y")
  then (db, Ok Canceled)
  else if io_err then (db, Exit 1 "delete error")
  else let (db', n) := delete_treatment t db in (db', Ok (Deleted n)).

(* ================================================================== *)
(** ** Shards *)

(** Modelled from the spec: the size of the space of 64-bit hash prefixes;
    the shard partitioner is called by the tests and is not in main.go. *)
Definition hash_space : Z := 2 ^ 64.

(** Modelled from the spec: the lower bound of shard [i] of [T],
    floor(i * 2^64 / T); the function that computes it is not in main.go. *)
Definition shard_start (i T : Z) : Z := i * hash_space / T.

(** Modelled from the spec: the upper bound of shard [i] of [T],
    floor((i+1) * 2^64 / T), and 2^64 - 1 for the last shard; the function
    that computes it is not in main.go. *)
Definition shard_end (i T : Z) : Z :=
  if i =? T - 1 then hash_space - 1 else (i + 1) * hash_space / T.

(** Modelled from the spec: membership of a 64-bit prefix [H] in shard [i]:
    half-open, the bound of the last shard being inclusive. *)
Definition in_shard (i T H : Z) : Prop :=
  shard_start i T <= H /\
  (if i =? T - 1 then H <= shard_end i T else H < shard_end i T).

Definition hex_digit (d : Z) : ascii :=
  nth (Z.to_nat d)
      (list_ascii_of_string "0123456789abcdef") "0"%char.

Fixpoint hex_fixed (w : nat) (v : Z) : string :=
  match w with
  | O => ""
  | S w' => String.append (hex_fixed w' (v / 16))
                          (String (hex_digit (v mod 16)) "")
  end.

Fixpoint zeros (n : nat) : string :=
  match n with
  | O => ""
  | S n' => String "0" (zeros n')
  end.

(** Modelled from the spec: a bound rendered at the width of a hash, the 64
    leading bits in hexadecimal and the low-order digits zero. *)
Definition render_bound (v : Z) : string :=
  String.append (hex_fixed 16 v) (zeros 48).

(** Modelled from the spec: [calculateShardRange], which the tests call and
    main.go does not define. *)
Definition calculateShardRange (i T : Z) : string * string :=
  (render_bound (shard_start i T), render_bound (shard_end i T)).

Definition hex_value (c : ascii) : Z :=
  let n := Z.of_N (N_of_ascii c) in
  if (48 <=? n) && (n <=? 57) then n - 48
  else if (97 <=? n) && (n <=? 102) then n - 87
  else 0.

Fixpoint hex_prefix (w : nat) (s : string) (acc : Z) : Z :=
  match w with
  | O => acc
  | S w' =>
      match s with
      | EmptyString => hex_prefix w' EmptyString (acc * 16)
      | String c s' => hex_prefix w' s' (acc * 16 + hex_value c)
      end
  end.

(** Modelled from the spec: the leading 64 bits of a hash as an unsigned
    integer. *)
Definition prefix64 (hash : string) : Z := hex_prefix 16 hash 0.

(** The texts [pathHash] returns, [hex.EncodeToString] of a SHA-256 sum: 64
    hexadecimal digits in lower case. *)
Definition hex_char (c : ascii) : bool :=
  let n := Z.of_N (N_of_ascii c) in
  ((48 <=? n) && (n <=? 57)) || ((97 <=? n) && (n <=? 102)).

Fixpoint hex_text (w : nat) (s : string) : bool :=
  match w, s with
  | O, EmptyString => true
  | S w', String c s' => hex_char c && hex_text w' s'
  | _, _ => false
  end.

Definition hash64 (s : string) : Prop := hex_text 64 s = true.

(** Modelled from the spec: membership in shard [i] of [T] as a test, on
    the leading 64 bits [H] of a hash: half-open, the bound of the last
    shard being inclusive. *)
Definition in_shardb (i T H : Z) : bool :=
  (shard_start i T <=? H)
  && (if i =? T - 1 then H <=? shard_end i T else H <? shard_end i T).

(** Modelled from the spec: the claim query with [--shard] and
    [--total-shards], which main.go does not have: the WHERE clause of
    [claimCmd] and the range of the shard, the hash being placed by its
    leading 64 bits. *)
Definition claim_where_sharded (t cursor : string) (shard total : Z)
           (r : Row) : bool :=
  claim_where t cursor r && in_shardb shard total (prefix64 (path_hash r)).

(** Modelled from the spec: [claimCmd] with a shard; [0 <= shard < total]
    is required. *)
Definition claimCmd_sharded (io_err : bool) (t cursor : string)
           (shard total n : Z) (db : table) : outcome (list ClaimResult) :=
  if (shard <? 0) || (total <=? shard)
  then Exit 1 "invalid shard"
  else if io_err then Exit 1 "query error"
  else Ok (map scan_claim
               (sql_limit n (order_by_path_hash
                               (filter (claim_where_sharded t cursor
                                                            shard total)
                                       db)))).

(* ================================================================== *)
(** ** Earlier variants *)

(** The earlier [enqueueCmd] and [statusCmd] kept in [main.go]:
    INSERT OR IGNORE under the PRIMARY KEY (path, treatment) of
    [.quality/schema.sql], a failed [db.Exec] being neither counted nor
    fatal; a status query that has no total row. *)
Module Legacy.
Definition insert_or_ignore (absPath ph ch t : string) (db : table)
  : table :=
  if existsb (fun r => String.eqb (path r) absPath
                       && String.eqb (treatment r) t) db
  then db
  else db ++ [mkRow absPath ph ch t None None None].

Section Enqueue.
Variable h : Host.
Variable io_err : nat -> bool.
Variable t : string.

Fixpoint enqueue_loop (lines : list string) (k : nat) (count : Z)
         (db : table) : table * Z :=
  match lines with
  | [] => (db, count)
  | line :: rest =>
      if String.eqb line "" then enqueue_loop rest (S k) count db
      else
        match Abs h line with
        | None => enqueue_loop rest (S k) count db
        | Some absPath =>
            let ph := pathHash h absPath in
            match fileHash h absPath with
            | None => enqueue_loop rest (S k) count db
            | Some ch =>
                if io_err k
                then enqueue_loop rest (S k) count db
                else enqueue_loop rest (S k) (count + 1)
                                  (insert_or_ignore absPath ph ch t db)
            end
        end
  end.

Definition enqueueCmd (lines : list string) (db : table)
  : table * outcome Z :=
  let (db', count) := enqueue_loop lines 0 0 db in (db', Ok count).

(** The input lines, from line [k] on, whose [db.Exec] returned no error,
    as absolute paths. *)
Fixpoint counted_lines (lines : list string) (k : nat) : list string :=
  match lines with
  | [] => []
  | line :: rest =>
      match accepted h line with
      | Some absPath =>
          if io_err k then counted_lines rest (S k)
          else absPath :: counted_lines rest (S k)
      | None => counted_lines rest (S k)
      end
  end.
End Enqueue.

(** SELECT treatment, COUNT( * ) FILTER (WHERE done_at IS NULL),
           COUNT( * ) FILTER (WHERE done_at IS NOT NULL)
      FROM queue [WHERE treatment=?] GROUP BY treatment *)
Definition statusCmd (io_err : bool) (filter_flag : string) (db : table)
  : outcome (list StatusResult) :=
  if io_err then Exit 1 "query error"
  else Ok (map (fun '(t, p, d) => mkStatusResult t p d)
               (stats filter_flag db)).

(** UPDATE queue SET done_at=?, result=?, next_at=DATETIME('now', ?)
     WHERE path=? AND treatment=? *)
Definition update_done_by_path (now res : string) (nxt : option string)
           (absPath t : string) (db : table) : table :=
  map (fun r =>
         if String.eqb (path r) absPath && String.eqb (treatment r) t
         then {| path := path r; path_hash := path_hash r;
                 content_hash := content_hash r; treatment := treatment r;
                 done_at := Some now; result := Some res; next_at := nxt |}
         else r) db.

(** The earlier [doneCmd]: the row is found by its path; a NULL modifier
    (no [--revisit]) makes DATETIME return NULL; a failed UPDATE is printed
    and the command still returns normally. *)
Definition doneCmd (h : Host) (io_err : bool) (goNow sqlNow : Z)
           (path_flag result_flag revisit t : string) (db : table)
  : table * outcome (option string) :=
  if String.eqb path_flag "" then (db, Exit 1 "error: --path required")
  else
    match Abs h path_flag with
    | None => (db, Exit 1 "path error")
    | Some absPath =>
        let now := format_rfc3339 h goNow in
        let nxt := if String.eqb revisit "" then None
                   else sqlite_datetime h sqlNow revisit in
        if io_err then (db, Ok (Some "update error"))
        else (update_done_by_path now result_flag nxt absPath t db, Ok None)
    end.
End Legacy.


(* ================================================================== *)
(** ** Notions used to state what the commands keep *)

(** Every row carries the hash of its own path, as [enqueue] writes it. *)
Definition rows_consistent (h : Host) (db : table) : Prop :=
  Forall (fun r => path_hash r = pathHash h (path r)) db.

(** The content hash of a readable file. *)
Definition content_of (h : Host) (absPath : string) : string :=
  match fileHash h absPath with
  | Some ch => ch
  | None => ""
  end.

(** The UPSERTs of a run, in input order. *)
Definition upsert_all (h : Host) (t : string) (paths : list string)
           (db : table) : table :=
  fold_left (fun acc p => upsert p (pathHash h p) (content_of h p) t acc)
            paths db.

(** Location [p] is stored for treatment [t]: its key is in the table, and
    every row of the key carries the path and the current content hash. *)
Definition stored_as (h : Host) (t p : string) (db : table) : Prop :=
  existsb (pk_matches (pathHash h p) t) db = true
  /\ forall r, In r db -> pk_matches (pathHash h p) t r = true ->
                path r = p /\ content_hash r = content_of h p.

(** No write of the run fails: [db.Exec] returns no error for any input
    line that reaches it. *)
Definition no_failed_write (h : Host) (io_err : nat -> bool)
           (lines : list string) : Prop :=
  forall k line p, nth_error lines k = Some line ->
                   accepted h line = Some p -> io_err k = false.

(** The rows a status query selects: all of them when [--treatment] is
    empty, the rows of that treatment otherwise. *)
Definition status_selection (filter_flag : string) (db : table) : table :=
  if String.eqb filter_flag "" then db
  else filter (in_treatment filter_flag) db.

(** The rows a status report accounts for. *)
Definition rows_reported (res : list StatusResult) : Z :=
  fold_right (fun sr acc => Pending sr + Done sr + acc) 0 res.

(* ================================================================== *)
(** ** A host with a clock *)

(** Instants are seconds since 1970-01-01T00:00:00Z.  The functions below
    render the instants of the years 0000 to 9999 as Go's
    [t.UTC().Format(time.RFC3339)] and SQLite's [DATETIME] do; the commands
    read the clock after 1970. *)
Definition decimal_digit (d : Z) : ascii :=
  nth (Z.to_nat d) (list_ascii_of_string "0123456789") "0"%char.

Fixpoint decimal_fixed (w : nat) (v : Z) : string :=
  match w with
  | O => ""
  | S w' => String.append (decimal_fixed w' (v / 10))
                          (String (decimal_digit (v mod 10)) "")
  end.

(** The proleptic Gregorian date (year, month, day) of a day counted from
    1970-01-01, by 400-year eras that start on the first of March. *)
Definition civil_from_days (days : Z) : Z * Z * Z :=
  let z := days + 719468 in
  let era := z / 146097 in
  let doe := z - era * 146097 in
  let yoe := (doe - doe / 1460 + doe / 36524 - doe / 146096) / 365 in
  let doy := doe - (365 * yoe + yoe / 4 - yoe / 100) in
  let mp := (5 * doy + 2) / 153 in
  let d := doy - (153 * mp + 2) / 5 + 1 in
  let m := if mp <? 10 then mp + 3 else mp - 9 in
  let y := yoe + era * 400 + (if m <=? 2 then 1 else 0) in
  (y, m, d).

Definition render_date (instant : Z) : string :=
  let '(y, m, d) := civil_from_days (instant / 86400) in
  String.append (decimal_fixed 4 y)
    (String.append "-" (String.append (decimal_fixed 2 m)
       (String.append "-" (decimal_fixed 2 d)))).

Definition render_time (instant : Z) : string :=
  let s := instant mod 86400 in
  String.append (decimal_fixed 2 (s / 3600))
    (String.append ":" (String.append (decimal_fixed 2 (s mod 3600 / 60))
       (String.append ":" (decimal_fixed 2 (s mod 60))))).

(** [t.UTC().Format(time.RFC3339)]: 2006-01-02T15:04:05Z. *)
Definition go_rfc3339 (instant : Z) : string :=
  String.append (render_date instant)
    (String.append "T" (String.append (render_time instant) "Z")).

(** The text SQLite's [DATETIME] returns: YYYY-MM-DD HH:MM:SS. *)
Definition sqlite_text (instant : Z) : string :=
  String.append (render_date instant)
    (String.append " " (render_time instant)).

Definition decimal_value (c : ascii) : option Z :=
  let n := Z.of_N (N_of_ascii c) in
  if (48 <=? n) && (n <=? 57) then Some (n - 48) else None.

(** The decimal number a text starts with, and the rest of the text. *)
Fixpoint leading_number (s : string) (acc : Z) (seen : bool)
  : option (Z * string) :=
  match s with
  | EmptyString => if seen then Some (acc, EmptyString) else None
  | String c s' =>
      match decimal_value c with
      | Some d => leading_number s' (acc * 10 + d) true
      | None => if seen then Some (acc, s) else None
      end
  end.

(** The modifiers [+N days], N in decimal: the number of days. *)
Definition days_modifier (m : string) : option Z :=
  match m with
  | String c rest =>
      if Ascii.eqb c "+"%char then
        match leading_number rest 0 false with
        | Some (n, unit) => if String.eqb unit " days" then Some n else None
        | None => None
        end
      else None
  | EmptyString => None
  end.

(** The last instant SQLite renders: 9999-12-31 23:59:59. *)
Definition last_instant : Z := 253402300799.

(** [DATETIME] at instant [now] with a modifier [+N days]: the text of the
    instant N days later, NULL past the year 9999.  Other modifiers are not
    interpreted here. *)
Definition datetime_plus_days (now : Z) (m : string) : option string :=
  match days_modifier m with
  | Some n =>
      if now + n * 86400 <=? last_instant
      then Some (sqlite_text (now + n * 86400))
      else None
  | None => None
  end.

(* ================================================================== *)
(** ** A small host and ledger used in the examples *)

Definition demo_host : Host :=
  {| Abs := fun s => if String.eqb s "bad" then None else Some s;
     pathHash := fun s => String.append "h:" s;
     fileHash := fun s => if String.eqb s "/missing.txt" then None
                          else Some (String.append "c:" s);
     format_rfc3339 := fun _ => "2025-11-08T10:00:00Z";
     sqlite_datetime := fun _ m =>
       if String.eqb m "+14 days" then Some "2025-11-22 10:00:00"
       else None |}.

Definition no_io_err : nat -> bool := fun _ => false.


Definition demo_db : table :=
  [ mkRow "/b.txt" "h:/b.txt" "c:/b.txt" "lint" None None None;
    mkRow "/a.txt" "h:/a.txt" "old" "lint"
          (Some "2025-11-01T00:00:00Z") (Some "r1") None;
    mkRow "/c.txt" "h:/c.txt" "c:/c.txt" "other" None None None;
    mkRow "/d.txt" "h:/d.txt" "c:/d.txt" "lint" None None None;
    mkRow "/e.txt" "h:/e.txt" "c:/e.txt" "lint"
          (Some "2025-11-02T00:00:00Z") (Some "r2")
          (Some "2025-11-16 00:00:00") ].

Definition shard_db : table :=
  [ mkRow "/x.go" "e07a" "c1" "lint" None None None;
    mkRow "/y.go" "1f3c" "c2" "lint" None None None;
    mkRow "/z.go" "9c55" "c3" "lint" None None None;
    mkRow "/w.go" "02aa" "c4" "lint" (Some "2025-11-01T00:00:00Z") None None ].

(** A ledger with hashes of full width, one of them in the topmost part of
    the hash space. *)
Definition wide_db : table :=
  [ mkRow "/top.go"
          "ffffffffffffffff000000000000000000000000000000000000000000000001"
          "c1" "lint" None None None;
    mkRow "/low.go"
          "3fffffffffffffffffffffffffffffffffffffffffffffffffffffffffffffff"
          "c2" "lint" None None None;
    mkRow "/mid.go"
          "8000000000000000000000000000000000000000000000000000000000000000"
          "c3" "lint" None None None;
    mkRow "/done.go"
          "c000000000000000000000000000000000000000000000000000000000000000"
          "c4" "lint" (Some "2025-11-01T00:00:00Z") (Some "r") None ].

(* ================================================================== *)
(* ================================================================== *)
(** * Properties *)

(* ------------------------------------------------------------------ *)
(** ** TEXT order *)

Lemma text_ltb_lt (a b : string) : text_ltb a b = true <-> text_lt a b.
Proof.
  unfold text_ltb, String.ltb, text_lt.
  destruct (String.compare a b); split; congruence.
Qed.

Lemma text_leb_le (a b : string) : text_leb a b = true <-> text_le a b.
Proof.
  unfold text_leb, String.leb, text_le.
  destruct (String.compare a b); split; congruence.
Qed.

Lemma text_lt_irrefl (a : string) : ~ text_lt a a.
Proof.
  unfold text_lt. intros H.
  assert (E : String.compare a a = Eq) by (apply String_as_OT.cmp_eq; reflexivity).
  congruence.
Qed.

Lemma text_lt_trans (a b c : string) :
  text_lt a b -> text_lt b c -> text_lt a c.
Proof.
  unfold text_lt. intros H1 H2.
  apply String_as_OT.cmp_lt.
  apply String_as_OT.cmp_lt in H1, H2.
  exact (String_as_OT.lt_trans _ _ _ H1 H2).
Qed.

Lemma text_le_cases (a b : string) : text_le a b <-> text_lt a b \/ a = b.
Proof.
  unfold text_le, text_lt. split.
  - intros H. destruct (String.compare a b) eqn:E.
    + right. now apply String.compare_eq_iff.
    + now left.
    + congruence.
  - intros [H | ->].
    + congruence.
    + assert (E : String.compare b b = Eq)
        by (apply String_as_OT.cmp_eq; reflexivity).
      congruence.
Qed.

Lemma text_not_le_lt (a b : string) : ~ text_le a b <-> text_lt b a.
Proof.
  unfold text_le, text_lt. rewrite (String.compare_antisym b a).
  destruct (String.compare a b); simpl; split; intros H;
    try discriminate; try reflexivity;
    try (exfalso; apply H; discriminate).
  intros H'. now apply H'.
Qed.

Lemma text_leb_false (a b : string) : text_leb a b = false <-> text_lt b a.
Proof.
  rewrite <- text_not_le_lt, <- text_leb_le.
  destruct (text_leb a b); split; congruence.
Qed.

Lemma text_ltb_false (a b : string) : text_ltb a b = false <-> text_le b a.
Proof.
  unfold text_ltb, String.ltb, text_le.
  rewrite (String.compare_antisym a b).
  destruct (String.compare b a); simpl; split; congruence.
Qed.

Lemma text_le_refl (a : string) : text_le a a.
Proof. apply text_le_cases. now right. Qed.

Lemma text_lt_le (a b : string) : text_lt a b -> text_le a b.
Proof. intros H. apply text_le_cases. now left. Qed.

Lemma text_le_lt_trans (a b c : string) :
  text_le a b -> text_lt b c -> text_lt a c.
Proof.
  intros H1 H2. apply text_le_cases in H1 as [H1 | ->]; [|assumption].
  eapply text_lt_trans; eassumption.
Qed.

Lemma text_lt_le_trans (a b c : string) :
  text_lt a b -> text_le b c -> text_lt a c.
Proof.
  intros H1 H2. apply text_le_cases in H2 as [H2 | <-]; [|assumption].
  eapply text_lt_trans; eassumption.
Qed.

Lemma text_le_trans (a b c : string) :
  text_le a b -> text_le b c -> text_le a c.
Proof.
  intros H1 H2. apply text_le_cases in H1 as [H1 | ->]; [|assumption].
  apply text_lt_le. eapply text_lt_le_trans; eassumption.
Qed.

Lemma text_empty_lt (s : string) : s <> "" -> text_lt "" s.
Proof. destruct s; [congruence | reflexivity]. Qed.

(* ------------------------------------------------------------------ *)
(** ** ORDER BY, LIMIT *)

Section OrderByFacts.
Context {A : Type} (key : A -> string).

Lemma insert_by_perm (r : A) (l : list A) :
  Permutation (insert_by key r l) (r :: l).
Proof.
  induction l as [|x tl IH]; simpl.
  - apply Permutation_refl.
  - destruct (text_leb (key r) (key x)).
    + apply Permutation_refl.
    + eapply perm_trans; [apply perm_skip, IH | apply perm_swap].
Qed.

Lemma order_by_perm (l : list A) : Permutation (order_by key l) l.
Proof.
  induction l as [|x tl IH]; simpl.
  - apply perm_nil.
  - eapply perm_trans; [apply insert_by_perm | apply perm_skip, IH].
Qed.

Lemma insert_by_sorted (r : A) (l : list A) :
  StronglySorted (key_le key) l -> StronglySorted (key_le key) (insert_by key r l).
Proof.
  induction 1 as [|x tl Hs IH Hx]; simpl.
  - constructor; constructor.
  - destruct (text_leb (key r) (key x)) eqn:E.
    + apply text_leb_le in E. constructor.
      * now constructor.
      * constructor; [exact E|].
        eapply Forall_impl; [|exact Hx].
        intros y Hy. eapply text_le_trans; eassumption.
    + apply text_leb_false in E. constructor; [exact IH|].
      eapply Permutation_Forall.
      * apply Permutation_sym, insert_by_perm.
      * constructor; [now apply text_lt_le | exact Hx].
Qed.

Lemma order_by_sorted (l : list A) : StronglySorted (key_le key) (order_by key l).
Proof.
  induction l as [|x tl IH]; simpl.
  - constructor.
  - now apply insert_by_sorted.
Qed.

Lemma filter_insert_by (p : A -> bool) (r : A) (l : list A) :
  StronglySorted (key_le key) l ->
  filter p (insert_by key r l)
  = if p r then insert_by key r (filter p l) else filter p l.
Proof.
  induction 1 as [|x tl Hs IH Hx]; simpl.
  - now destruct (p r).
  - destruct (text_leb (key r) (key x)) eqn:E; simpl.
    + destruct (p r) eqn:Er; [|reflexivity].
      destruct (p x) eqn:Ex; simpl.
      * now rewrite E.
      * (* r goes before the first row kept, which follows x *)
        apply text_leb_le in E.
        assert (Hall : Forall (fun y => text_le (key r) (key y))
                              (filter p tl)).
        { apply Forall_forall. intros y Hy. apply filter_In in Hy as [Hy _].
          rewrite Forall_forall in Hx.
          eapply text_le_trans; [exact E | now apply Hx]. }
        destruct (filter p tl) as [|y tl'] eqn:Ef; [reflexivity|].
        simpl. inversion Hall as [|? ? Hy _]; subst.
        apply text_leb_le in Hy. now rewrite Hy.
    + rewrite IH. destruct (p x) eqn:Ex; simpl.
      * destruct (p r); [|reflexivity]. now rewrite E.
      * reflexivity.
Qed.

Lemma filter_order_by (p : A -> bool) (l : list A) :
  filter p (order_by key l) = order_by key (filter p l).
Proof.
  induction l as [|x tl IH]; simpl; [reflexivity|].
  rewrite filter_insert_by by apply order_by_sorted.
  rewrite IH. now destruct (p x).
Qed.

Lemma sorted_nodup_strict (l : list A) :
  StronglySorted (key_le key) l -> NoDup (map key l) -> StronglySorted (key_lt key) l.
Proof.
  induction 1 as [|x tl Hs IH Hx]; simpl; intros Hn.
  - constructor.
  - inversion Hn as [|? ? Hnot Hn']; subst.
    constructor; [now apply IH|].
    apply Forall_forall. intros y Hy.
    rewrite Forall_forall in Hx. specialize (Hx y Hy).
    apply text_le_cases in Hx as [Hx | Hx]; [exact Hx|].
    exfalso. apply Hnot. rewrite Hx. now apply in_map.
Qed.
End OrderByFacts.

Lemma sql_limit_incl {A : Type} (n : Z) (l : list A) (x : A) :
  In x (sql_limit n l) -> In x l.
Proof.
  unfold sql_limit. destruct (n <? 0); [trivial|].
  intros H. rewrite <- (firstn_skipn (Z.to_nat n) l).
  apply in_or_app. now left.
Qed.

Lemma sql_limit_length {A : Type} (n : Z) (l : list A) :
  0 <= n -> Z.of_nat (length (sql_limit n l)) <= n.
Proof.
  intros Hn. unfold sql_limit.
  destruct (n <? 0) eqn:E; [apply Z.ltb_lt in E; lia|].
  rewrite length_firstn. lia.
Qed.

Lemma sql_limit_all {A : Type} (n : Z) (l : list A) :
  n < 0 \/ Z.of_nat (length l) <= n -> sql_limit n l = l.
Proof.
  intros H. unfold sql_limit.
  destruct (n <? 0) eqn:E; [reflexivity|].
  apply Z.ltb_ge in E. apply firstn_all2. lia.
Qed.

Lemma sql_limit_sorted {A : Type} (R : A -> A -> Prop) (n : Z) (l : list A) :
  StronglySorted R l -> StronglySorted R (sql_limit n l).
Proof.
  unfold sql_limit. destruct (n <? 0); [trivial|].
  generalize (Z.to_nat n) as k. intros k Hs. revert k.
  induction Hs as [|x tl Hs IH Hx]; intros [|k]; simpl; try constructor.
  - apply IH.
  - apply Forall_forall. intros y Hy.
    rewrite Forall_forall in Hx. apply Hx.
    rewrite <- (firstn_skipn k tl). apply in_or_app. now left.
Qed.

(* ------------------------------------------------------------------ *)
(** ** claim *)

Lemma pending_true (r : Row) : pending r = true <-> done_at r = None.
Proof. unfold pending, is_null. destruct (done_at r); split; congruence. Qed.

Lemma claim_where_true (t cursor : string) (r : Row) :
  claim_where t cursor r = true <->
  treatment r = t /\ done_at r = None /\ text_lt cursor (path_hash r).
Proof.
  unfold claim_where.
  rewrite !andb_true_iff, String.eqb_eq, pending_true, text_ltb_lt. tauto.
Qed.

Lemma StronglySorted_map {A B : Type} (f : A -> B) (R : B -> B -> Prop)
      (l : list A) :
  StronglySorted (fun a b => R (f a) (f b)) l -> StronglySorted R (map f l).
Proof.
  induction 1 as [|x tl Hs IH Hx]; simpl; constructor; [exact IH|].
  apply Forall_forall. intros y Hy. apply in_map_iff in Hy as [z [<- Hz]].
  rewrite Forall_forall in Hx. now apply Hx.
Qed.

(** A SELECT ... WHERE p ORDER BY path_hash LIMIT n returns rows of the
    table that satisfy [p], ascending in [path_hash], at most [n] of them
    when [n] is not negative. *)
Lemma select_ordered_limited (p : Row -> bool) (n : Z) (db : table) :
  let rows := sql_limit n (order_by_path_hash (filter p db)) in
  Forall (fun r => In r db /\ p r = true) rows
  /\ StronglySorted (key_le path_hash) rows
  /\ (0 <= n -> Z.of_nat (length rows) <= n).
Proof.
  intros rows. split; [|split].
  - apply Forall_forall. intros r Hr.
    apply sql_limit_incl in Hr.
    apply (Permutation_in _ (order_by_perm path_hash _)) in Hr.
    now apply filter_In in Hr.
  - apply sql_limit_sorted. apply order_by_sorted.
  - apply sql_limit_length.
Qed.

(** With a negative [n] the SELECT returns every row of the table that
    satisfies [p], each as often as the table holds it. *)
Lemma select_unlimited (p : Row -> bool) (n : Z) (db : table) :
  n < 0 ->
  Permutation (sql_limit n (order_by_path_hash (filter p db))) (filter p db).
Proof.
  intros Hn. rewrite sql_limit_all by (left; exact Hn).
  apply order_by_perm.
Qed.

(* ------------------------------------------------------------------ *)
(** ** The cursor walk *)

Lemma filter_andb {A : Type} (f g : A -> bool) (l : list A) :
  filter (fun x => f x && g x) l = filter g (filter f l).
Proof.
  induction l as [|x tl IH]; simpl; [reflexivity|].
  destruct (f x); simpl; [destruct (g x)|]; now rewrite IH.
Qed.

(** One claim is the head of what the sorted pending rows leave after the
    cursor. *)
Lemma claim_query_after_cursor (t cursor : string) (n : Z) (db : table) :
  claim_query t cursor n db
  = sql_limit n (filter (fun r => text_ltb cursor (path_hash r))
                        (order_by_path_hash (pending_of t db))).
Proof.
  unfold claim_query, order_by_path_hash, pending_of.
  rewrite filter_order_by. f_equal. f_equal.
  unfold claim_where.
  now rewrite (filter_andb (fun r => String.eqb (treatment r) t && pending r)
                           (fun r => text_ltb cursor (path_hash r))).
Qed.

Lemma filter_after_cursor (cursor : string) (P L : list Row) :
  Forall (fun r => text_le (path_hash r) cursor) P ->
  Forall (fun r => text_lt cursor (path_hash r)) L ->
  filter (fun r => text_ltb cursor (path_hash r)) (P ++ L) = L.
Proof.
  intros HP HL. rewrite filter_app.
  replace (filter _ P) with (@nil Row).
  - simpl. apply forallb_filter_id. apply forallb_forall.
    intros r Hr. rewrite Forall_forall in HL. apply text_ltb_lt. auto.
  - symmetry. induction HP as [|x tl Hx _ IH]; simpl; [reflexivity|].
    apply text_ltb_false in Hx. now rewrite Hx.
Qed.

Lemma StronglySorted_app_inv {A : Type} (R : A -> A -> Prop)
      (l1 l2 : list A) :
  StronglySorted R (l1 ++ l2) ->
  StronglySorted R l1 /\ StronglySorted R l2
  /\ (forall x y, In x l1 -> In y l2 -> R x y).
Proof.
  induction l1 as [|a l1 IH]; simpl; intros H.
  - split; [constructor|]. split; [exact H|]. intros x y [].
  - inversion H as [|? ? Hs Ha]; subst.
    destruct (IH Hs) as (H1 & H2 & H3).
    rewrite Forall_forall in Ha.
    split; [|split]; [|exact H2|].
    + constructor; [exact H1|]. apply Forall_forall. intros y Hy.
      apply Ha. apply in_or_app. now left.
    + intros x y [<- | Hx] Hy; [|now apply H3].
      apply Ha. apply in_or_app. now right.
Qed.

Lemma sql_limit_split {A : Type} (n : Z) (l : list A) :
  exists rest, l = sql_limit n l ++ rest
               /\ (n <> 0 -> l <> [] -> sql_limit n l <> []).
Proof.
  unfold sql_limit. destruct (n <? 0) eqn:E.
  - exists []. split; [now rewrite app_nil_r | auto].
  - exists (skipn (Z.to_nat n) l). split; [now rewrite firstn_skipn|].
    apply Z.ltb_ge in E. intros Hn Hl.
    destruct (Z.to_nat n) as [|k] eqn:Ek; [lia|].
    destruct l; [congruence | discriminate].
Qed.

Lemma last_cons {A : Type} (x d : A) (l : list A) :
  last (x :: l) d = last l x.
Proof.
  revert x d. induction l as [|y tl IH]; intros x d; [reflexivity|].
  change (last (x :: y :: tl) d) with (last (y :: tl) d).
  now rewrite (IH y d), (IH y x).
Qed.

Lemma last_In {A : Type} (l : list A) (d : A) : In (last l d) (d :: l).
Proof.
  revert d. induction l as [|x tl IH]; intros d; [now left|].
  rewrite last_cons. right. apply IH.
Qed.

Lemma last_scan_claim (rows : list Row) (r : Row) :
  PathHash (last (map scan_claim rows) (scan_claim r))
  = path_hash (last rows r).
Proof.
  revert r. induction rows as [|x tl IH]; intros r; [reflexivity|].
  simpl map. rewrite !last_cons. apply IH.
Qed.

Lemma strictly_sorted_le_last (b : Row) (B : list Row) :
  StronglySorted (key_lt path_hash) (b :: B) ->
  Forall (fun r => text_le (path_hash r) (path_hash (last B b))) (b :: B).
Proof.
  intros H. apply Forall_forall. intros r Hr.
  revert b H r Hr. induction B as [|x tl IH]; intros b H r Hr.
  - destruct Hr as [<- | []]. apply text_le_refl.
  - rewrite last_cons. inversion H as [|? ? Hs Hb]; subst.
    destruct Hr as [<- | Hr]; [|now apply IH].
    rewrite Forall_forall in Hb.
    apply text_lt_le. apply (Hb (last tl x)). apply last_In.
Qed.

(** The walk from a cursor that separates the sorted pending rows into
    [P] (at or before the cursor) and [L] (after it) returns [L]. *)
Lemma cursor_walk_from (t : string) (n : Z) (db : table) :
  n <> 0 ->
  forall (fuel : nat) (cursor : string) (P L : list Row),
    order_by_path_hash (pending_of t db) = P ++ L ->
    StronglySorted (key_lt path_hash) (P ++ L) ->
    Forall (fun r => text_le (path_hash r) cursor) P ->
    Forall (fun r => text_lt cursor (path_hash r)) L ->
    (length L < fuel)%nat ->
    cursor_walk fuel t cursor n db = map scan_claim L.
Proof.
  intros Hn. induction fuel as [|fuel IH]; intros cursor P L HS Hsorted HP HL Hf;
    [inversion Hf|].
  simpl. unfold claimCmd. rewrite claim_query_after_cursor, HS.
  rewrite (filter_after_cursor cursor P L HP HL).
  destruct (sql_limit_split n L) as (rest & Hsplit & Hne).
  destruct (sql_limit n L) as [|b B] eqn:EB.
  - destruct L as [|x L']; [reflexivity|].
    exfalso. now apply (Hne Hn).
  - change (map scan_claim (b :: B))
      with (scan_claim b :: map scan_claim B).
    cbv iota. rewrite last_scan_claim.
    clear EB Hne. subst L. rewrite map_app.
    change (map scan_claim (b :: B))
      with (scan_claim b :: map scan_claim B).
    f_equal.
    rewrite app_assoc in HS, Hsorted.
    destruct (StronglySorted_app_inv _ _ _ Hsorted) as (HPB & _ & Hcross).
    destruct (StronglySorted_app_inv _ _ _ HPB) as (_ & HB & _).
    pose proof (strictly_sorted_le_last b B HB) as HBle.
    apply (IH (path_hash (last B b)) (P ++ b :: B) rest HS Hsorted).
    + apply Forall_app. split; [|exact HBle].
      apply Forall_forall. intros r Hr.
      rewrite Forall_forall in HP, HL.
      apply text_lt_le. eapply text_le_lt_trans; [apply HP, Hr|].
      apply HL. apply in_or_app. left. apply last_In.
    + apply Forall_forall. intros r Hr. apply (Hcross (last B b) r).
      * apply in_or_app. right. apply last_In.
      * exact Hr.
    + rewrite length_app in Hf. simpl in Hf. lia.
Qed.

Lemma pending_of_hashes_nodup (t : string) (db : table) :
  pk_unique db -> NoDup (map path_hash (pending_of t db)).
Proof.
  unfold pk_unique, pending_of.
  induction db as [|a tl IH]; simpl; intros H; [constructor|].
  inversion H as [|? ? Hnot Hn]; subst.
  destruct (String.eqb (treatment a) t && pending a) eqn:Ea; [|now apply IH].
  simpl. constructor; [|now apply IH].
  intros Hin. apply in_map_iff in Hin as [r [Hr Hin]].
  apply filter_In in Hin as [Hin Hk].
  apply andb_true_iff in Ea as [Ea _], Hk as [Hk _].
  apply String.eqb_eq in Ea, Hk.
  apply Hnot. apply in_map_iff. exists r. split; [|exact Hin].
  unfold pk. now rewrite Hr, Hk, Ea.
Qed.

Lemma strictly_sorted_nodup {A : Type} (key : A -> string) (l : list A) :
  StronglySorted (key_lt key) l -> NoDup (map key l).
Proof.
  induction 1 as [|x tl Hs IH Hx]; simpl; constructor; [|exact IH].
  intros Hin. apply in_map_iff in Hin as [y [Hy Hin]].
  rewrite Forall_forall in Hx. specialize (Hx y Hin).
  unfold key_lt in Hx. rewrite Hy in Hx. exact (text_lt_irrefl _ Hx).
Qed.

(** C2: on a fixed table (the primary key holds, no hash is empty) the
    cursor walk with any batch size other than 0, started at the empty
    cursor and given fuel for more claims than there are rows, returns the
    pending rows of the treatment in strictly ascending hash order: a
    permutation of them, no hash twice. *)
Theorem cursor_walk_enumerates_pending (t : string) (n : Z) (db : table)
        (fuel : nat) :
  ledger_ok db ->
  n <> 0 ->
  (length db < fuel)%nat ->
  cursor_walk fuel t "" n db
  = map scan_claim (order_by_path_hash (pending_of t db))
  /\ Permutation (cursor_walk fuel t "" n db)
                 (map scan_claim (pending_of t db))
  /\ StronglySorted (key_lt PathHash) (cursor_walk fuel t "" n db)
  /\ NoDup (map PathHash (cursor_walk fuel t "" n db)).
Proof.
  intros [Hpk Hne] Hn Hfuel.
  set (S := order_by_path_hash (pending_of t db)).
  assert (Hperm : Permutation S (pending_of t db))
    by apply order_by_perm.
  assert (Hstrict : StronglySorted (key_lt path_hash) S).
  { apply sorted_nodup_strict; [apply order_by_sorted|].
    eapply Permutation_NoDup;
      [apply Permutation_map, Permutation_sym, Hperm|].
    now apply pending_of_hashes_nodup. }
  assert (Hwalk : cursor_walk fuel t "" n db = map scan_claim S).
  { apply (cursor_walk_from t n db Hn fuel "" [] S); try reflexivity.
    - exact Hstrict.
    - constructor.
    - apply Forall_forall. intros r Hr.
      apply (Permutation_in _ Hperm) in Hr.
      apply filter_In in Hr as [Hr _].
      rewrite Forall_forall in Hne. apply text_empty_lt. now apply Hne.
    - rewrite (Permutation_length Hperm). unfold pending_of.
      pose proof (filter_length_le
                    (fun r => String.eqb (treatment r) t && pending r) db).
      lia. }
  rewrite Hwalk. split; [reflexivity|]. split; [|split].
  - now apply Permutation_map.
  - apply StronglySorted_map. exact Hstrict.
  - rewrite map_map. simpl.
    apply (strictly_sorted_nodup path_hash). exact Hstrict.
Qed.

Lemma pk_dec (a b : string * string) : {a = b} + {a <> b}.
Proof. decide equality; apply string_dec. Defined.

(** A table whose keys survive duplicate removal satisfies the primary
    key. *)
Lemma pk_unique_by_nodup (db : table) :
  nodup pk_dec (map pk db) = map pk db -> pk_unique db.
Proof. unfold pk_unique. intros <-. apply NoDup_nodup. Qed.

Ltac distinct_keys := apply pk_unique_by_nodup; vm_compute; reflexivity.

Lemma demo_db_pk_unique : pk_unique demo_db.
Proof. distinct_keys. Qed.

Lemma demo_db_hashes_not_empty : Forall (fun r => path_hash r <> "") demo_db.
Proof. repeat constructor; simpl; congruence. Qed.

Lemma cursor_walk_enumerates_pending_witness :
  ledger_ok demo_db
  /\ 1 <> 0
  /\ (length demo_db < 6)%nat
  /\ cursor_walk 6 "lint" "" 1 demo_db
     = [mkClaimResult "/b.txt" "h:/b.txt"; mkClaimResult "/d.txt" "h:/d.txt"]
  /\ Permutation (cursor_walk 6 "lint" "" 1 demo_db)
                 (map scan_claim (pending_of "lint" demo_db)).
Proof.
  assert (H1 : 1 <> 0) by lia.
  assert (H2 : (length demo_db < 6)%nat) by (simpl; lia).
  assert (H0 : ledger_ok demo_db)
    by (split; [exact demo_db_pk_unique | exact demo_db_hashes_not_empty]).
  destruct (cursor_walk_enumerates_pending "lint" 1 demo_db 6 H0 H1 H2)
    as (_ & Hperm & _).
  repeat split; try assumption; apply H0.
Defined.

(* ------------------------------------------------------------------ *)
(** ** Shards *)

Lemma hash_space_pos : 0 < hash_space.
Proof. reflexivity. Qed.

(** Every shard, the last included, is the half-open interval between two
    consecutive boundaries floor(i * 2^64 / T). *)
Lemma in_shard_boundaries (i T H : Z) :
  1 <= T -> 0 <= i < T ->
  in_shard i T H <-> i * hash_space / T <= H < (i + 1) * hash_space / T.
Proof.
  intros HT Hi. unfold in_shard, shard_start, shard_end.
  destruct (i =? T - 1) eqn:E.
  - apply Z.eqb_eq in E. subst i.
    replace (T - 1 + 1) with T by lia.
    rewrite (Z.mul_comm T), Z.div_mul by lia. lia.
  - tauto.
Qed.

Lemma boundary_mono (i j T : Z) :
  1 <= T -> i <= j -> i * hash_space / T <= j * hash_space / T.
Proof.
  intros HT Hij. apply Z.div_le_mono; [lia|].
  pose proof hash_space_pos. nia.
Qed.

Lemma in_shard_one (i j T H : Z) :
  1 <= T -> 0 <= i < T -> 0 <= j < T ->
  in_shard i T H -> in_shard j T H -> i = j.
Proof.
  intros HT Hi Hj Hin1 Hin2.
  apply in_shard_boundaries in Hin1, Hin2; try assumption.
  destruct (Z.lt_trichotomy i j) as [Hlt | [Heq | Hgt]]; [|exact Heq|].
  - pose proof (boundary_mono (i + 1) j T HT ltac:(lia)). lia.
  - pose proof (boundary_mono (j + 1) i T HT ltac:(lia)). lia.
Qed.

Lemma in_shardb_true (i T H : Z) :
  in_shardb i T H = true <-> in_shard i T H.
Proof.
  unfold in_shardb, in_shard. rewrite andb_true_iff, Z.leb_le.
  destruct (i =? T - 1); [rewrite Z.leb_le | rewrite Z.ltb_lt]; tauto.
Qed.

Lemma shard_of_prefix (T H : Z) :
  1 <= T -> 0 <= H < hash_space ->
  let i := ((H + 1) * T - 1) / hash_space in
  0 <= i < T /\ in_shard i T H.
Proof.
  intros HT HH i. pose proof hash_space_pos as HM.
  assert (Hlo : hash_space * i <= (H + 1) * T - 1)
    by (apply Z.mul_div_le; exact HM).
  assert (Hhi : (H + 1) * T - 1 < hash_space * Z.succ i)
    by (apply Z.mul_succ_div_gt; exact HM).
  assert (Hi : 0 <= i < T).
  { split.
    - apply Z.div_pos; [nia | exact HM].
    - apply Z.div_lt_upper_bound; [exact HM | nia]. }
  split; [exact Hi|].
  apply in_shard_boundaries; [exact HT | exact Hi |].
  split.
  - assert (i * hash_space / T < H + 1); [|lia].
    apply Z.div_lt_upper_bound; [lia | nia].
  - assert (H + 1 <= (i + 1) * hash_space / T); [|lia].
    apply Z.div_le_lower_bound; [lia | nia].
Qed.

Lemma hex_value_range (c : ascii) : 0 <= hex_value c <= 15.
Proof.
  unfold hex_value.
  destruct ((48 <=? Z.of_N (N_of_ascii c))
            && (Z.of_N (N_of_ascii c) <=? 57)) eqn:E1.
  - apply andb_true_iff in E1 as [H1 H2].
    apply Z.leb_le in H1, H2. lia.
  - destruct ((97 <=? Z.of_N (N_of_ascii c))
              && (Z.of_N (N_of_ascii c) <=? 102)) eqn:E2; [|lia].
    apply andb_true_iff in E2 as [H1 H2].
    apply Z.leb_le in H1, H2. lia.
Qed.

Lemma hex_prefix_range (w : nat) (s : string) (acc : Z) :
  0 <= acc ->
  16 ^ Z.of_nat w * acc <= hex_prefix w s acc < 16 ^ Z.of_nat w * (acc + 1).
Proof.
  revert s acc. induction w as [|w IH]; intros s acc Hacc.
  - change (16 ^ Z.of_nat 0) with 1. simpl hex_prefix. lia.
  - rewrite Nat2Z.inj_succ, Z.pow_succ_r by lia.
    assert (Hp : 0 < 16 ^ Z.of_nat w) by (apply Z.pow_pos_nonneg; lia).
    cbn [hex_prefix]. destruct s as [|c s'].
    + specialize (IH EmptyString (acc * 16) ltac:(lia)). nia.
    + pose proof (hex_value_range c) as Hc.
      specialize (IH s' (acc * 16 + hex_value c) ltac:(lia)). nia.
Qed.

Lemma prefix64_range (hash : string) : 0 <= prefix64 hash < hash_space.
Proof.
  unfold prefix64.
  pose proof (hex_prefix_range 16 hash 0 ltac:(lia)) as H.
  change (16 ^ Z.of_nat 16) with hash_space in H. lia.
Qed.

Lemma hex_char_value (c : ascii) :
  hex_char c = true ->
  (48 <= Z.of_N (N_of_ascii c) <= 57
   /\ hex_value c = Z.of_N (N_of_ascii c) - 48)
  \/ (97 <= Z.of_N (N_of_ascii c) <= 102
      /\ hex_value c = Z.of_N (N_of_ascii c) - 87).
Proof.
  unfold hex_char, hex_value.
  destruct ((48 <=? Z.of_N (N_of_ascii c))
            && (Z.of_N (N_of_ascii c) <=? 57)) eqn:E1; simpl.
  - intros _. left. apply andb_true_iff in E1 as [H1 H2].
    apply Z.leb_le in H1, H2. lia.
  - intros E2. rewrite E2. right. apply andb_true_iff in E2 as [H1 H2].
    apply Z.leb_le in H1, H2. lia.
Qed.

(** On hexadecimal digits the order of the bytes is the order of the
    values. *)
Lemma hex_char_compare (c d : ascii) :
  hex_char c = true -> hex_char d = true ->
  Ascii.compare c d = Z.compare (hex_value c) (hex_value d).
Proof.
  intros Hc Hd. unfold Ascii.compare. rewrite <- N2Z.inj_compare.
  destruct (hex_char_value c Hc) as [[Rc ->] | [Rc ->]],
           (hex_char_value d Hd) as [[Rd ->] | [Rd ->]];
    destruct (Z.compare_spec (Z.of_N (N_of_ascii c)) (Z.of_N (N_of_ascii d)));
    symmetry;
    first [ apply Z.compare_eq_iff | apply Z.compare_lt_iff
          | apply Z.compare_gt_iff ]; lia.
Qed.

(** Texts of [w] hexadecimal digits compare as the numbers they spell. *)
Lemma hex_text_compare (w : nat) :
  forall (a b : string) (acc : Z),
    0 <= acc -> hex_text w a = true -> hex_text w b = true ->
    String.compare a b
    = Z.compare (hex_prefix w a acc) (hex_prefix w b acc).
Proof.
  induction w as [|w IH]; intros [|c a] [|d b] acc Hacc Ha Hb;
    try discriminate.
  - simpl. now rewrite Z.compare_refl.
  - cbn [hex_text] in Ha, Hb.
    apply andb_true_iff in Ha as [Hc Ha]. apply andb_true_iff in Hb as [Hd Hb].
    cbn [String.compare hex_prefix].
    rewrite (hex_char_compare c d Hc Hd).
    pose proof (hex_value_range c) as Rc. pose proof (hex_value_range d) as Rd.
    pose proof (hex_prefix_range w a (acc * 16 + hex_value c) ltac:(lia)) as Pa.
    pose proof (hex_prefix_range w b (acc * 16 + hex_value d) ltac:(lia)) as Pb.
    assert (Hp : 0 < 16 ^ Z.of_nat w) by (apply Z.pow_pos_nonneg; lia).
    destruct (Z.compare_spec (hex_value c) (hex_value d)) as [E | L | G].
    + rewrite E. apply IH; [lia | assumption | assumption].
    + symmetry. apply Z.compare_lt_iff. nia.
    + symmetry. apply Z.compare_gt_iff. nia.
Qed.

Lemma hex_text_app (w1 w2 : nat) (a b : string) :
  hex_text w1 a = true -> hex_text w2 b = true ->
  hex_text (w1 + w2) (String.append a b) = true.
Proof.
  revert a. induction w1 as [|w1 IH]; intros [|c a] Ha Hb; try discriminate.
  - exact Hb.
  - cbn [hex_text] in Ha. apply andb_true_iff in Ha as [Hc Ha].
    cbn [Nat.add String.append hex_text]. now rewrite Hc, IH.
Qed.

Lemma hex_text_zeros (n : nat) : hex_text n (zeros n) = true.
Proof. induction n as [|n IH]; [reflexivity | exact IH]. Qed.

Lemma hex_digit_value (d : Z) :
  0 <= d < 16 ->
  hex_char (hex_digit d) = true /\ hex_value (hex_digit d) = d.
Proof.
  intros Hd.
  assert (E : exists k, (k < 16)%nat /\ d = Z.of_nat k)
    by (exists (Z.to_nat d); lia).
  destruct E as (k & Hk & ->).
  do 16 (destruct k as [|k]; [split; reflexivity|]). lia.
Qed.

Lemma hex_text_fixed (w : nat) (v : Z) : hex_text w (hex_fixed w v) = true.
Proof.
  revert v. induction w as [|w IH]; intros v; [reflexivity|].
  cbn [hex_fixed]. rewrite <- Nat.add_1_r.
  apply hex_text_app; [apply IH|].
  cbn [hex_text]. rewrite andb_true_r.
  apply hex_digit_value. apply Z.mod_pos_bound. lia.
Qed.

Lemma hex_prefix_app (w1 w2 : nat) (a b : string) (acc : Z) :
  hex_text w1 a = true ->
  hex_prefix (w1 + w2) (String.append a b) acc
  = hex_prefix w2 b (hex_prefix w1 a acc).
Proof.
  revert a acc. induction w1 as [|w1 IH]; intros [|c a] acc Ha;
    try discriminate.
  - reflexivity.
  - cbn [hex_text] in Ha. apply andb_true_iff in Ha as [_ Ha].
    cbn [Nat.add String.append hex_prefix]. now apply IH.
Qed.

Lemma hex_prefix_fixed (w : nat) (v acc : Z) :
  hex_prefix w (hex_fixed w v) acc
  = acc * 16 ^ Z.of_nat w + v mod 16 ^ Z.of_nat w.
Proof.
  revert v. induction w as [|w IH]; intros v.
  - cbn [hex_prefix hex_fixed]. change (16 ^ Z.of_nat 0) with 1.
    rewrite Z.mod_1_r. lia.
  - cbn [hex_fixed]. rewrite <- Nat.add_1_r at 1.
    rewrite hex_prefix_app by apply hex_text_fixed.
    rewrite IH. cbn [hex_prefix].
    destruct (hex_digit_value (v mod 16)) as [_ ->];
      [apply Z.mod_pos_bound; lia|].
    rewrite Nat2Z.inj_succ, Z.pow_succ_r by lia.
    assert (Hp : 0 < 16 ^ Z.of_nat w) by (apply Z.pow_pos_nonneg; lia).
    rewrite (Z.rem_mul_r v 16 (16 ^ Z.of_nat w)) by lia. lia.
Qed.

Lemma hex_prefix_zeros (n : nat) (acc : Z) :
  hex_prefix n (zeros n) acc = acc * 16 ^ Z.of_nat n.
Proof.
  revert acc. induction n as [|n IH]; intros acc.
  - cbn [hex_prefix]. change (16 ^ Z.of_nat 0) with 1. lia.
  - cbn [zeros hex_prefix]. rewrite IH.
    rewrite Nat2Z.inj_succ, Z.pow_succ_r by lia.
    change (hex_value "0") with 0. lia.
Qed.

(** A rendered bound is a text of 64 digits that spells the bound followed
    by 192 zero bits. *)
Lemma render_bound_value (v : Z) :
  0 <= v < hash_space ->
  hex_text 64 (render_bound v) = true
  /\ hex_prefix 64 (render_bound v) 0 = v * 16 ^ Z.of_nat 48.
Proof.
  intros Hv. unfold render_bound. change 64%nat with (16 + 48)%nat. split.
  - apply hex_text_app; [apply hex_text_fixed | apply hex_text_zeros].
  - rewrite hex_prefix_app by apply hex_text_fixed.
    rewrite hex_prefix_zeros, hex_prefix_fixed.
    change (16 ^ Z.of_nat 16) with hash_space.
    rewrite Z.mod_small by exact Hv. lia.
Qed.

(** The number a text spells lies in the block of its leading digits. *)
Lemma hex_prefix_block (w1 w2 : nat) (s : string) (acc : Z) :
  0 <= acc ->
  16 ^ Z.of_nat w2 * hex_prefix w1 s acc
  <= hex_prefix (w1 + w2) s acc
  < 16 ^ Z.of_nat w2 * (hex_prefix w1 s acc + 1).
Proof.
  revert s acc. induction w1 as [|w1 IH]; intros s acc Hacc.
  - cbn [Nat.add hex_prefix]. now apply hex_prefix_range.
  - cbn [Nat.add hex_prefix]. destruct s as [|c s'].
    + apply IH. lia.
    + apply IH. pose proof (hex_value_range c). lia.
Qed.

(** Against a rendered bound, a hash compares as TEXT the way its leading
    64 bits compare with the bound. *)
Lemma bound_as_text (v : Z) (h : string) :
  0 <= v < hash_space -> hash64 h ->
  (text_le (render_bound v) h <-> v <= prefix64 h)
  /\ (text_lt h (render_bound v) <-> prefix64 h < v).
Proof.
  intros Hv Hh. destruct (render_bound_value v Hv) as [Hr Hval].
  pose proof (hex_prefix_block 16 48 h 0 ltac:(lia)) as Hb.
  change (16 + 48)%nat with 64%nat in Hb. fold (prefix64 h) in Hb.
  assert (Hp : 0 < 16 ^ Z.of_nat 48) by (apply Z.pow_pos_nonneg; lia).
  unfold text_le, text_lt. split.
  - rewrite (hex_text_compare 64 _ _ 0 ltac:(lia) Hr Hh), Hval.
    rewrite Z.compare_gt_iff. nia.
  - rewrite (hex_text_compare 64 _ _ 0 ltac:(lia) Hh Hr), Hval.
    rewrite Z.compare_lt_iff. nia.
Qed.

Lemma shard_start_range (i T : Z) :
  1 <= T -> 0 <= i < T -> 0 <= shard_start i T < hash_space.
Proof.
  intros HT Hi. unfold shard_start.
  assert (0 < hash_space) by reflexivity. split.
  - apply Z.div_pos; nia.
  - apply Z.div_lt_upper_bound; nia.
Qed.

Lemma shard_end_range (i T : Z) :
  1 <= T -> 0 <= i < T -> 0 <= shard_end i T < hash_space.
Proof.
  intros HT Hi. unfold shard_end.
  assert (0 < hash_space) by reflexivity.
  destruct (i =? T - 1) eqn:E; [lia|]. apply Z.eqb_neq in E. split.
  - apply Z.div_pos; nia.
  - apply Z.div_lt_upper_bound; nia.
Qed.

(** The range of a shard as the TEXT comparison of a hash with the bounds
    [calculateShardRange] renders: the start inclusive, the end exclusive,
    and no upper bound in the last shard. *)
Lemma shard_range_as_text (i T : Z) (h : string) :
  1 <= T -> 0 <= i < T -> hash64 h ->
  in_shard i T (prefix64 h)
  <-> text_le (fst (calculateShardRange i T)) h
      /\ (i = T - 1 \/ text_lt h (snd (calculateShardRange i T))).
Proof.
  intros HT Hi Hh. unfold calculateShardRange, in_shard. cbn [fst snd].
  destruct (bound_as_text (shard_start i T) h
              (shard_start_range i T HT Hi) Hh) as [Hlo _].
  destruct (bound_as_text (shard_end i T) h
              (shard_end_range i T HT Hi) Hh) as [_ Hhi].
  pose proof (prefix64_range h) as Hp.
  rewrite Hlo, Hhi.
  destruct (i =? T - 1) eqn:E.
  - apply Z.eqb_eq in E. unfold shard_end. rewrite (proj2 (Z.eqb_eq _ _) E).
    intuition lia.
  - apply Z.eqb_neq in E. intuition lia.
Qed.

(** C3: for every [T >= 1] the shard ranges are contiguous, pairwise
    disjoint and cover the hash space: shard 0 starts at the all-zero hash,
    the last shard ends at the largest 64-bit prefix, taken inclusive, and
    the prefix of every hash lies in exactly one shard. *)
Theorem shard_ranges_partition (T : Z) :
  1 <= T ->
  (forall i, 0 < i < T -> shard_start i T = shard_end (i - 1) T)
  /\ (forall i j H, 0 <= i < T -> 0 <= j < T ->
        in_shard i T H -> in_shard j T H -> i = j)
  /\ (forall H, 0 <= H < hash_space ->
        exists i, 0 <= i < T /\ in_shard i T H)
  /\ shard_start 0 T = 0
  /\ fst (calculateShardRange 0 T)
     = "0000000000000000000000000000000000000000000000000000000000000000"
  /\ shard_end (T - 1) T = hash_space - 1
  /\ snd (calculateShardRange (T - 1) T)
     = "ffffffffffffffff000000000000000000000000000000000000000000000000"
  /\ (forall hash : string,
        exists i, (0 <= i < T /\ in_shard i T (prefix64 hash))
                  /\ forall j, 0 <= j < T /\ in_shard j T (prefix64 hash) ->
                               j = i).
Proof.
  intros HT.
  assert (Hdisj : forall i j H, 0 <= i < T -> 0 <= j < T ->
                    in_shard i T H -> in_shard j T H -> i = j).
  { intros i j H Hi Hj Hin1 Hin2.
    apply in_shard_boundaries in Hin1, Hin2; try assumption.
    destruct (Z.lt_trichotomy i j) as [Hlt | [Heq | Hgt]]; [|exact Heq|].
    - pose proof (boundary_mono (i + 1) j T HT ltac:(lia)). lia.
    - pose proof (boundary_mono (j + 1) i T HT ltac:(lia)). lia. }
  assert (Hstart : shard_start 0 T = 0) by reflexivity.
  assert (Hend : shard_end (T - 1) T = hash_space - 1)
    by (unfold shard_end; now rewrite Z.eqb_refl).
  split; [|split; [exact Hdisj|split; [|split; [exact Hstart|split;
         [|split; [exact Hend|split]]]]]].
  - intros i Hi. unfold shard_start, shard_end.
    destruct (i - 1 =? T - 1) eqn:E; [apply Z.eqb_eq in E; lia|].
    now replace (i - 1 + 1) with i by lia.
  - intros H HH. eexists. apply (shard_of_prefix T H HT HH).
  - unfold calculateShardRange. simpl fst. now rewrite Hstart.
  - unfold calculateShardRange. simpl snd. now rewrite Hend.
  - intros hash. pose proof (prefix64_range hash) as HH.
    destruct (shard_of_prefix T (prefix64 hash) HT HH) as [Hi Hin].
    eexists. split; [split; [exact Hi | exact Hin]|].
    intros j [Hj Hjin]. exact (Hdisj _ _ _ Hj Hi Hjin Hin).
Qed.

Lemma shard_ranges_partition_witness :
  1 <= 4
  /\ calculateShardRange 2 4
     = ("8000000000000000000000000000000000000000000000000000000000000000",
        "c000000000000000000000000000000000000000000000000000000000000000")
  /\ shard_start 3 4 = shard_end 2 4
  /\ shard_end 3 4 = hash_space - 1
  /\ exists i, 0 <= i < 4
               /\ in_shard i 4 (prefix64 "9c55e0aa00112233445566778899aabb").
Proof.
  assert (H4 : 1 <= 4) by lia.
  destruct (shard_ranges_partition 4 H4)
    as (Hcontig & _ & _ & _ & _ & Hend & _ & Hone).
  split; [exact H4|]. split; [reflexivity|].
  split; [apply (Hcontig 3); lia|]. split; [exact Hend|].
  destruct (Hone "9c55e0aa00112233445566778899aabb") as (i & [Hi Hin] & _).
  exists i. split; assumption.
Defined.

(* ------------------------------------------------------------------ *)
(** ** claim: the batch *)

Lemma claim_where_sharded_true (t cursor : string) (shard total : Z)
      (r : Row) :
  claim_where_sharded t cursor shard total r = true <->
  (treatment r = t /\ done_at r = None /\ text_lt cursor (path_hash r))
  /\ in_shard shard total (prefix64 (path_hash r)).
Proof.
  unfold claim_where_sharded.
  now rewrite andb_true_iff, claim_where_true, in_shardb_true.
Qed.

Lemma claimCmd_sharded_runs (t cursor : string) (shard total n : Z)
      (db : table) :
  0 <= shard < total ->
  claimCmd_sharded false t cursor shard total n db
  = Ok (map scan_claim
            (sql_limit n (order_by_path_hash
                            (filter (claim_where_sharded t cursor shard total)
                                    db)))).
Proof.
  intros [H0 H1]. unfold claimCmd_sharded.
  destruct (shard <? 0) eqn:E0; [apply Z.ltb_lt in E0; lia|].
  destruct (total <=? shard) eqn:E1; [apply Z.leb_le in E1; lia|].
  reflexivity.
Qed.

Lemma claimCmd_sharded_inv (io_err : bool) (t cursor : string)
      (shard total n : Z) (db : table) (res : list ClaimResult) :
  claimCmd_sharded io_err t cursor shard total n db = Ok res ->
  0 <= shard < total
  /\ res = map scan_claim
                (sql_limit n (order_by_path_hash
                                (filter (claim_where_sharded t cursor
                                                             shard total)
                                        db))).
Proof.
  unfold claimCmd_sharded. intros H.
  destruct (shard <? 0) eqn:E0; [discriminate|].
  destruct (total <=? shard) eqn:E1; [discriminate|].
  apply Z.ltb_ge in E0. apply Z.leb_gt in E1.
  destruct io_err; [discriminate|]. injection H as <-.
  split; [lia | reflexivity].
Qed.

(** C1, as amended: [claimCmd] returns rows that are pending, of the
    treatment, with a hash greater than the cursor, ascending in the hash;
    at most [n] of them when [n >= 0], and all of them, each once per row,
    when [n < 0] (LIMIT with a negative [n] is no limit).  With a shard the
    same holds of the rows whose hash lies in the range of the shard, the
    end of the last shard included: a hash of 64 digits is, as TEXT, at or
    above the start [calculateShardRange] renders and, except in the last
    shard, below the end; no item is returned for two shards of one
    partition, and with [n < 0] every such row is returned for one of
    them. *)
Theorem claimCmd_batch (t cursor : string) (n : Z) (db : table) :
  (forall io_err res, claimCmd io_err t cursor n db = Ok res ->
     (0 <= n -> Z.of_nat (length res) <= n)
     /\ Forall (claimed_from db t cursor) res
     /\ StronglySorted (key_le PathHash) res
     /\ (n < 0 ->
         (forall r, In r db -> treatment r = t -> done_at r = None ->
                    text_lt cursor (path_hash r) -> In (scan_claim r) res)
         /\ Permutation res
               (map scan_claim (filter (claim_where t cursor) db))))
  /\ (exists res, claimCmd false t cursor n db = Ok res)
  /\ (forall io_err shard total res,
        claimCmd_sharded io_err t cursor shard total n db = Ok res ->
        0 <= shard < total
        /\ (0 <= n -> Z.of_nat (length res) <= n)
        /\ Forall (fun cr =>
                     claimed_from db t cursor cr
                     /\ in_shard shard total (prefix64 (PathHash cr))
                     /\ (hash64 (PathHash cr) ->
                         text_le (fst (calculateShardRange shard total))
                                 (PathHash cr)
                         /\ (shard = total - 1
                             \/ text_lt (PathHash cr)
                                        (snd (calculateShardRange shard
                                                                  total)))))
                  res
        /\ StronglySorted (key_le PathHash) res
        /\ (n < 0 ->
            (forall r, In r db -> treatment r = t -> done_at r = None ->
                       text_lt cursor (path_hash r) ->
                       in_shard shard total (prefix64 (path_hash r)) ->
                       In (scan_claim r) res)
            /\ Permutation res
                  (map scan_claim
                       (filter (claim_where_sharded t cursor shard total)
                               db)))
        /\ (forall other res', 
              claimCmd_sharded false t cursor other total n db = Ok res' ->
              other <> shard ->
              forall cr, In cr res -> In cr res' -> False))
  /\ (forall shard total, 0 <= shard < total ->
        exists res, claimCmd_sharded false t cursor shard total n db = Ok res)
  /\ (n < 0 ->
      forall total r, 1 <= total -> In r db -> treatment r = t ->
                      done_at r = None -> text_lt cursor (path_hash r) ->
        exists shard res,
          0 <= shard < total
          /\ claimCmd_sharded false t cursor shard total n db = Ok res
          /\ In (scan_claim r) res).
Proof.
  split; [|split; [|split; [|split]]].
  - intros io_err res H. unfold claimCmd in H.
    destruct io_err; [discriminate|]. injection H as <-.
    unfold claim_query.
    destruct (select_ordered_limited (claim_where t cursor) n db)
      as (Hall & Hsorted & Hlen).
    split; [|split; [|split]].
    + now rewrite length_map.
    + apply Forall_forall. intros cr Hcr.
      apply in_map_iff in Hcr as [r [<- Hr]].
      rewrite Forall_forall in Hall. destruct (Hall r Hr) as [Hin Hp].
      apply claim_where_true in Hp as (Ht & Hd & Hc).
      exists r. simpl. auto.
    + apply StronglySorted_map. exact Hsorted.
    + intros Hn.
      pose proof (select_unlimited (claim_where t cursor) n db Hn) as Hperm.
      split; [|apply Permutation_map; exact Hperm].
      intros r Hin Ht Hd Hc. apply in_map.
      apply (Permutation_in _ (Permutation_sym Hperm)).
      apply filter_In. split; [exact Hin|].
      apply claim_where_true. auto.
  - eexists. reflexivity.
  - intros io_err shard total res H.
    apply claimCmd_sharded_inv in H as [Hshard ->].
    destruct (select_ordered_limited
                (claim_where_sharded t cursor shard total) n db)
      as (Hall & Hsorted & Hlen).
    assert (Hsound : forall cr,
               In cr (map scan_claim
                        (sql_limit n
                           (order_by_path_hash
                              (filter (claim_where_sharded t cursor
                                                           shard total) db)))) ->
               claimed_from db t cursor cr
               /\ in_shard shard total (prefix64 (PathHash cr))).
    { intros cr Hcr. apply in_map_iff in Hcr as [r [<- Hr]].
      rewrite Forall_forall in Hall. destruct (Hall r Hr) as [Hin Hp].
      apply claim_where_sharded_true in Hp as [(Ht & Hd & Hc) Hs].
      split; [exists r; simpl; auto | exact Hs]. }
    split; [exact Hshard|]. split; [|split; [|split; [|split]]].
    + now rewrite length_map.
    + apply Forall_forall. intros cr Hcr.
      destruct (Hsound cr Hcr) as [Hfrom Hs].
      split; [exact Hfrom|]. split; [exact Hs|]. intros Hwide.
      apply (shard_range_as_text shard total (PathHash cr));
        [lia | exact Hshard | exact Hwide | exact Hs].
    + apply StronglySorted_map. exact Hsorted.
    + intros Hn.
      pose proof (select_unlimited
                    (claim_where_sharded t cursor shard total) n db Hn)
        as Hperm.
      split; [|apply Permutation_map; exact Hperm].
      intros r Hin Ht Hd Hc Hs. apply in_map.
      apply (Permutation_in _ (Permutation_sym Hperm)).
      apply filter_In. split; [exact Hin|].
      apply claim_where_sharded_true. auto.
    + intros other res' H' Hne cr Hcr Hcr'.
      apply claimCmd_sharded_inv in H' as [Hother ->].
      apply Hsound in Hcr as [_ Hs].
      apply in_map_iff in Hcr' as [r' [<- Hr']].
      apply sql_limit_incl in Hr'.
      apply (Permutation_in _ (order_by_perm path_hash _)) in Hr'.
      apply filter_In in Hr' as [_ Hp'].
      apply claim_where_sharded_true in Hp' as [_ Hs'].
      apply Hne.
      apply (in_shard_one other shard total (prefix64 (path_hash r')));
        try assumption; lia.
  - intros shard total Hshard. eexists.
    apply claimCmd_sharded_runs. exact Hshard.
  - intros Hn total r HT Hin Ht Hd Hc.
    destruct (shard_of_prefix total (prefix64 (path_hash r)) HT
                (prefix64_range (path_hash r))) as [Hshard Hs].
    eexists. eexists. split; [exact Hshard|].
    split; [apply claimCmd_sharded_runs; exact Hshard|].
    apply in_map.
    apply (Permutation_in _ (Permutation_sym (select_unlimited _ n db Hn))).
    apply filter_In. split; [exact Hin|].
    apply claim_where_sharded_true. auto.
Qed.

(** C1 as stated fails for a negative batch size: [--n=-1] is accepted and
    returns every pending row of the treatment, here two, where at most
    [n] rows would be none. *)
Lemma claimCmd_negative_n_returns_all :
  exists res,
    claimCmd false "lint" "" (-1) demo_db = Ok res
    /\ res = [mkClaimResult "/b.txt" "h:/b.txt";
              mkClaimResult "/d.txt" "h:/d.txt"]
    /\ res = map scan_claim (pending_of "lint" demo_db)
    /\ Z.of_nat (length res) = 2
    /\ ~ (Z.of_nat (length res) <= -1).
Proof.
  eexists. split; [reflexivity|]. split; [reflexivity|].
  split; [reflexivity|]. split; [reflexivity|]. simpl. lia.
Qed.

Lemma claimCmd_batch_witness :
  claimCmd false "lint" "" 2 shard_db
  = Ok [mkClaimResult "/y.go" "1f3c"; mkClaimResult "/z.go" "9c55"]
  /\ Z.of_nat 2 <= 2
  /\ Forall (claimed_from shard_db "lint" "")
            [mkClaimResult "/y.go" "1f3c"; mkClaimResult "/z.go" "9c55"]
  /\ claimCmd false "lint" "" (-1) shard_db
     = Ok [mkClaimResult "/y.go" "1f3c"; mkClaimResult "/z.go" "9c55";
           mkClaimResult "/x.go" "e07a"]
  /\ In (mkClaimResult "/x.go" "e07a")
        [mkClaimResult "/y.go" "1f3c"; mkClaimResult "/z.go" "9c55";
         mkClaimResult "/x.go" "e07a"]
  /\ claimCmd_sharded false "lint" "" 0 4 (-1) wide_db
     = Ok [mkClaimResult "/low.go"
             "3fffffffffffffffffffffffffffffffffffffffffffffffffffffffffffffff"]
  /\ claimCmd_sharded false "lint" "" 3 4 (-1) wide_db
     = Ok [mkClaimResult "/top.go"
             "ffffffffffffffff000000000000000000000000000000000000000000000001"]
  /\ in_shard 3 4
       (prefix64
          "ffffffffffffffff000000000000000000000000000000000000000000000001")
  /\ text_le
       (fst (calculateShardRange 3 4))
       "ffffffffffffffff000000000000000000000000000000000000000000000001"
  /\ ~ text_lt
         "ffffffffffffffff000000000000000000000000000000000000000000000001"
         (snd (calculateShardRange 3 4)).
Proof.
  pose proof (claimCmd_batch "lint" "" 2 shard_db) as (H1 & _).
  pose proof (claimCmd_batch "lint" "" (-1) shard_db) as (H2 & _).
  pose proof (claimCmd_batch "lint" "" (-1) wide_db) as (_ & _ & H3 & _).
  destruct (H1 false _ eq_refl) as (Hlen & Hall & _).
  destruct (H2 false _ eq_refl) as (_ & _ & _ & Hneg).
  destruct (Hneg ltac:(lia)) as [Hevery _].
  assert (Htop : claimCmd_sharded false "lint" "" 3 4 (-1) wide_db
     = Ok [mkClaimResult "/top.go"
             "ffffffffffffffff000000000000000000000000000000000000000000000001"])
    by (vm_compute; reflexivity).
  destruct (H3 false 3 4 _ Htop) as (_ & _ & Hsh & _).
  rewrite Forall_forall in Hsh.
  destruct (Hsh _ (or_introl eq_refl)) as (_ & Hin & Htext).
  destruct (Htext ltac:(vm_compute; reflexivity)) as [Hlo _].
  split; [reflexivity|]. split; [apply Hlen; lia|]. split; [exact Hall|].
  split; [reflexivity|].
  split.
  { apply (Hevery (mkRow "/x.go" "e07a" "c1" "lint" None None None));
      [simpl; auto | reflexivity | reflexivity | reflexivity]. }
  split; [vm_compute; reflexivity|]. split; [exact Htop|].
  split; [exact Hin|]. split; [exact Hlo|].
  vm_compute. discriminate.
Defined.

(* ------------------------------------------------------------------ *)
(** ** enqueue: one location *)

Lemma pk_matches_true (ph t : string) (r : Row) :
  pk_matches ph t r = true <-> pk r = (ph, t).
Proof.
  unfold pk_matches, pk. rewrite andb_true_iff, !String.eqb_eq.
  split; [intros [-> ->]; reflexivity | intros H; now inversion H].
Qed.

Lemma pk_unique_same_key (db : table) (a b : Row) :
  pk_unique db -> In a db -> In b db -> pk a = pk b -> a = b.
Proof.
  unfold pk_unique. induction db as [|x tl IH]; simpl; intros Hn Ha Hb E;
    [contradiction|].
  inversion Hn as [|? ? Hnot Hn']; subst.
  destruct Ha as [<- | Ha], Hb as [<- | Hb]; auto.
  - exfalso. apply Hnot. rewrite E. now apply in_map.
  - exfalso. apply Hnot. rewrite <- E. now apply in_map.
Qed.

Lemma existsb_pk_matches (ph t : string) (db : table) (r : Row) :
  In r db -> pk r = (ph, t) -> existsb (pk_matches ph t) db = true.
Proof.
  intros Hin Hk. apply existsb_exists. exists r.
  split; [exact Hin | now apply pk_matches_true].
Qed.

Lemma doEnqueueCmd_one (h : Host) (io_err : nat -> bool)
      (t line absPath ch : string) (db : table) :
  line <> "" -> Abs h line = Some absPath -> fileHash h absPath = Some ch ->
  io_err 0%nat = false ->
  doEnqueueCmd h io_err t false [line] db
  = (upsert absPath (pathHash h absPath) ch t db, Ok 1).
Proof.
  intros Hline HAbs Hfile Hio. unfold doEnqueueCmd. simpl.
  apply String.eqb_neq in Hline. rewrite Hline, HAbs, Hfile, Hio.
  reflexivity.
Qed.

Lemma Forall2_map_self {A : Type} (R : A -> A -> Prop) (f : A -> A)
      (l : list A) :
  (forall x, In x l -> R x (f x)) -> Forall2 R l (map f l).
Proof.
  induction l as [|x tl IH]; simpl; intros H; constructor.
  - apply H. now left.
  - apply IH. intros y Hy. apply H. now right.
Qed.

(** C4: when the stored content hash differs from the one just computed,
    enqueueing the location overwrites the content hash and sets done_at,
    result and next_at to NULL in its row, and a later claim of the
    treatment whose cursor is below the hash and whose batch is large enough
    returns it. *)
Theorem enqueue_reactivates_changed (h : Host) (io_err : nat -> bool)
        (t line absPath ch : string) (db : table) (r : Row) :
  line <> "" -> Abs h line = Some absPath -> fileHash h absPath = Some ch ->
  io_err 0%nat = false ->
  pk_unique db ->
  In r db -> pk r = (pathHash h absPath, t) -> content_hash r <> ch ->
  let item := mkRow absPath (pathHash h absPath) ch t None None None in
  exists db',
    doEnqueueCmd h io_err t false [line] db = (db', Ok 1)
    /\ In item db'
    /\ length db' = length db
    /\ (forall r', In r' db' -> pk r' = (pathHash h absPath, t) -> r' = item)
    /\ (forall cursor n,
          text_lt cursor (pathHash h absPath) ->
          n < 0 \/ Z.of_nat (length db') <= n ->
          exists res, claimCmd false t cursor n db' = Ok res
                      /\ In (scan_claim item) res).
Proof.
  intros Hline HAbs Hfile Hio Hpk Hin Hkey Hch item.
  set (ph := pathHash h absPath) in *.
  exists (upsert absPath ph ch t db).
  split; [now apply doEnqueueCmd_one|].
  unfold upsert. rewrite (existsb_pk_matches ph t db r Hin Hkey).
  set (f := fun x => if pk_matches ph t x
                     then on_conflict_update absPath ch x else x).
  assert (Hfr : f r = item).
  { unfold f. rewrite (proj2 (pk_matches_true ph t r) Hkey).
    unfold on_conflict_update.
    apply String.eqb_neq in Hch. rewrite Hch.
    inversion Hkey as [[Hph Ht]]. unfold item. now rewrite Hph, Ht. }
  assert (Hitem : In item (map f db)).
  { rewrite <- Hfr. now apply in_map. }
  split; [exact Hitem|]. split; [apply length_map|]. split.
  - intros r' Hr' Hk'. apply in_map_iff in Hr' as [x [<- Hx]].
    unfold f in *. destruct (pk_matches ph t x) eqn:Ex.
    + apply pk_matches_true in Ex.
      assert (x = r) by (apply (pk_unique_same_key db); congruence).
      subst x. rewrite (proj2 (pk_matches_true ph t r) Hkey) in Hfr.
      exact Hfr.
    + apply pk_matches_true in Hk'. congruence.
  - intros cursor n Hc Hn. eexists. split; [reflexivity|].
    apply in_map. unfold claim_query.
    rewrite sql_limit_all.
    + apply (Permutation_in _ (Permutation_sym (order_by_perm path_hash _))).
      apply filter_In. split; [exact Hitem|].
      apply claim_where_true. simpl. auto.
    + destruct Hn as [Hn | Hn]; [now left | right].
      rewrite (Permutation_length (order_by_perm path_hash _)).
      pose proof (filter_length_le (claim_where t cursor) (map f db)).
      lia.
Qed.

(** C5: when the stored content hash equals the one just computed,
    enqueueing the location changes no row's content hash, done_at, result
    or next_at; the table is the same when the stored path is the absolute
    path. *)
Theorem enqueue_unchanged_keeps_state (h : Host) (io_err : nat -> bool)
        (t line absPath ch : string) (db : table) (r : Row) :
  line <> "" -> Abs h line = Some absPath -> fileHash h absPath = Some ch ->
  io_err 0%nat = false ->
  pk_unique db ->
  In r db -> pk r = (pathHash h absPath, t) -> content_hash r = ch ->
  exists db',
    doEnqueueCmd h io_err t false [line] db = (db', Ok 1)
    /\ Forall2 (fun old new =>
                  pk new = pk old
                  /\ content_hash new = content_hash old
                  /\ done_at new = done_at old
                  /\ result new = result old
                  /\ next_at new = next_at old) db db'
    /\ (path r = absPath -> db' = db).
Proof.
  intros Hline HAbs Hfile Hio Hpk Hin Hkey Hch.
  set (ph := pathHash h absPath) in *.
  exists (upsert absPath ph ch t db).
  split; [now apply doEnqueueCmd_one|].
  unfold upsert. rewrite (existsb_pk_matches ph t db r Hin Hkey).
  assert (Hsame : forall x, In x db -> pk_matches ph t x = true -> x = r).
  { intros x Hx Ex. apply pk_matches_true in Ex.
    apply (pk_unique_same_key db); congruence. }
  split.
  - apply Forall2_map_self. intros x Hx.
    destruct (pk_matches ph t x) eqn:Ex; [|repeat split; reflexivity].
    rewrite (Hsame x Hx Ex). unfold on_conflict_update, pk. simpl.
    pose proof Hch as Hch'. apply String.eqb_eq in Hch'. rewrite Hch'.
    repeat split; congruence.
  - intros Hpath. rewrite <- (map_id db) at 2. apply map_ext_in.
    intros x Hx. destruct (pk_matches ph t x) eqn:Ex; [|reflexivity].
    rewrite (Hsame x Hx Ex). unfold on_conflict_update.
    pose proof Hch as Hch'. apply String.eqb_eq in Hch'.
    rewrite Hch', <- Hpath, <- Hch. now destruct r.
Qed.

Lemma enqueue_reactivates_changed_witness :
  exists db',
    doEnqueueCmd demo_host no_io_err "lint" false ["/a.txt"] demo_db
    = (db', Ok 1)
    /\ In (mkRow "/a.txt" "h:/a.txt" "c:/a.txt" "lint" None None None) db'
    /\ exists res, claimCmd false "lint" "" (-1) db' = Ok res
                   /\ In (mkClaimResult "/a.txt" "h:/a.txt") res.
Proof.
  destruct (enqueue_reactivates_changed demo_host no_io_err
              "lint" "/a.txt" "/a.txt" "c:/a.txt" demo_db
              (mkRow "/a.txt" "h:/a.txt" "old" "lint"
                     (Some "2025-11-01T00:00:00Z") (Some "r1") None))
    as (db' & Hrun & Hin & _ & _ & Hclaim).
  - discriminate.
  - reflexivity.
  - reflexivity.
  - reflexivity.
  - exact demo_db_pk_unique.
  - simpl. auto.
  - reflexivity.
  - discriminate.
  - exists db'. split; [exact Hrun|]. split; [exact Hin|].
    apply (Hclaim "" (-1)); [reflexivity | left; lia].
Defined.

Lemma enqueue_unchanged_keeps_state_witness :
  exists db',
    doEnqueueCmd demo_host no_io_err "lint" false ["/e.txt"] demo_db
    = (db', Ok 1)
    /\ db' = demo_db.
Proof.
  destruct (enqueue_unchanged_keeps_state demo_host no_io_err
              "lint" "/e.txt" "/e.txt" "c:/e.txt" demo_db
              (mkRow "/e.txt" "h:/e.txt" "c:/e.txt" "lint"
                     (Some "2025-11-02T00:00:00Z") (Some "r2")
                     (Some "2025-11-16 00:00:00")))
    as (db' & Hrun & _ & Hsame).
  - discriminate.
  - reflexivity.
  - reflexivity.
  - reflexivity.
  - exact demo_db_pk_unique.
  - simpl. auto 10.
  - reflexivity.
  - reflexivity.
  - exists db'. split; [exact Hrun | now apply Hsame].
Defined.

(* ------------------------------------------------------------------ *)
(** ** enqueue: the count reported *)

Lemma upsert_has_key (absPath ph ch t : string) (db : table) :
  exists r, In r (upsert absPath ph ch t db) /\ pk r = (ph, t).
Proof.
  unfold upsert. destruct (existsb (pk_matches ph t) db) eqn:E.
  - apply existsb_exists in E as [x [Hx Ex]].
    exists (on_conflict_update absPath ch x). split.
    + apply in_map_iff. exists x. now rewrite Ex.
    + apply pk_matches_true in Ex. exact Ex.
  - eexists. split; [apply in_or_app; right; now left | reflexivity].
Qed.

Lemma upsert_keeps_keys (absPath ph ch t : string) (db : table)
      (k : string * string) :
  (exists r, In r db /\ pk r = k) ->
  exists r, In r (upsert absPath ph ch t db) /\ pk r = k.
Proof.
  intros [r [Hr Hk]]. unfold upsert.
  destruct (existsb (pk_matches ph t) db).
  - exists (if pk_matches ph t r then on_conflict_update absPath ch r else r).
    split; [apply in_map_iff; exists r; split; [reflexivity | exact Hr]|].
    destruct (pk_matches ph t r); exact Hk.
  - exists r. split; [apply in_or_app; now left | exact Hk].
Qed.

Lemma upsert_pk_unique (absPath ph ch t : string) (db : table) :
  pk_unique db -> pk_unique (upsert absPath ph ch t db).
Proof.
  unfold pk_unique, upsert. intros H.
  destruct (existsb (pk_matches ph t) db) eqn:E.
  - rewrite map_map.
    rewrite (map_ext _ pk); [exact H|].
    intros r. now destruct (pk_matches ph t r).
  - rewrite map_app. simpl.
    apply NoDup_app_remove_l with (l := []). simpl.
    apply Permutation_NoDup with (l := (ph, t) :: map pk db).
    + apply Permutation_cons_append.
    + constructor; [|exact H].
      intros Hin. apply in_map_iff in Hin as [r [Hk Hr]].
      assert (existsb (pk_matches ph t) db = true)
        by (apply (existsb_pk_matches ph t db r); assumption).
      congruence.
Qed.

Lemma accepted_inv (h : Host) (line absPath : string) :
  accepted h line = Some absPath ->
  String.eqb line "" = false /\ Abs h line = Some absPath
  /\ exists ch, fileHash h absPath = Some ch.
Proof.
  unfold accepted. destruct (String.eqb line ""); [discriminate|].
  destruct (Abs h line) as [a|]; [|discriminate].
  destruct (fileHash h a) as [ch|] eqn:E; [|discriminate].
  intros H. injection H as <-. eauto.
Qed.

Lemma accepted_none (h : Host) (line : string) :
  accepted h line = None ->
  String.eqb line "" = true \/ Abs h line = None
  \/ exists a, Abs h line = Some a /\ fileHash h a = None.
Proof.
  unfold accepted. destruct (String.eqb line ""); [auto|].
  destruct (Abs h line) as [a|]; [|auto].
  destruct (fileHash h a) eqn:E; [discriminate|]. eauto.
Qed.

Lemma enqueue_loop_ok (h : Host) (io_err : nat -> bool) (t : string)
      (lines : list string) :
  forall (k : nat) (count : Z) (db db' : table) (c : Z),
    enqueue_loop h io_err t lines k count db = (db', Ok c) ->
    c = count + Z.of_nat (length (accepted_lines h lines))
    /\ (forall key, (exists r, In r db /\ pk r = key) ->
                    exists r, In r db' /\ pk r = key)
    /\ (forall p, In p (accepted_lines h lines) ->
                  exists r, In r db' /\ pk r = (pathHash h p, t))
    /\ (pk_unique db -> pk_unique db')
    /\ (forall j line p, nth_error lines j = Some line ->
                         accepted h line = Some p ->
                         io_err (k + j)%nat = false).
Proof.
  induction lines as [|line rest IH]; intros k count db db' c H.
  - simpl in H. inversion H; subst. simpl.
    split; [lia|]. split; [auto|]. split; [intros p []|]. split; [auto|].
    intros [|j] line p Hj; discriminate.
  - simpl in H. simpl accepted_lines.
    destruct (accepted h line) as [absPath|] eqn:Ea.
    + pose proof Ea as Ea'.
      apply accepted_inv in Ea as (E1 & E2 & ch & E3).
      rewrite E1, E2, E3 in H.
      destruct (io_err k) eqn:Ek; [discriminate|].
      apply IH in H as (Hc & Hkeep & Hrows & Hpk & Hio).
      split; [simpl length; lia|]. split; [|split; [|split]].
      * intros key Hkey. apply Hkeep. now apply upsert_keeps_keys.
      * intros p [<- | Hp]; [|now apply Hrows].
        apply Hkeep. apply upsert_has_key.
      * intros Hu. apply Hpk. now apply upsert_pk_unique.
      * intros [|j] line' p Hj Hacc; simpl in Hj.
        -- now rewrite Nat.add_0_r.
        -- rewrite Nat.add_succ_r. apply (Hio j line' p Hj Hacc).
    + assert (Hskip : enqueue_loop h io_err t rest (S k) count db
                      = (db', Ok c)).
      { apply accepted_none in Ea as [E | [E | [a [E1 E2]]]].
        - now rewrite E in H.
        - destruct (String.eqb line ""); [exact H|]. now rewrite E in H.
        - destruct (String.eqb line ""); [exact H|].
          now rewrite E1, E2 in H. }
      apply IH in Hskip as (Hc & Hkeep & Hrows & Hpk & Hio).
      split; [exact Hc|]. split; [exact Hkeep|]. split; [exact Hrows|].
      split; [exact Hpk|].
      intros [|j] line' p Hj Hacc; simpl in Hj.
      * inversion Hj; subst. congruence.
      * rewrite Nat.add_succ_r. apply (Hio j line' p Hj Hacc).
Qed.

Lemma legacy_enqueue_loop_count (h : Host) (io_err : nat -> bool)
      (t : string) (lines : list string) :
  forall (k : nat) (count : Z) (db : table),
    snd (Legacy.enqueue_loop h io_err t lines k count db)
    = count + Z.of_nat (length (Legacy.counted_lines h io_err lines k)).
Proof.
  induction lines as [|line rest IH]; intros k count db.
  - simpl. lia.
  - simpl. destruct (accepted h line) as [absPath|] eqn:Ea.
    + apply accepted_inv in Ea as (E1 & E2 & ch & E3).
      rewrite E1, E2, E3.
      destruct (io_err k); rewrite IH; simpl length; lia.
    + apply accepted_none in Ea as [E | [E | [a [E1 E2]]]].
      * rewrite E. apply IH.
      * destruct (String.eqb line ""); [apply IH|]. rewrite E. apply IH.
      * destruct (String.eqb line ""); [apply IH|].
        rewrite E1, E2. apply IH.
Qed.

(** C6, as amended: the count reported is the number of input lines that
    are not empty, have an absolute path and can be hashed (and, in the
    earlier variant, whose INSERT returned no error), a location given
    twice being counted twice; in [doEnqueueCmd] every counted location has
    a row under its key afterwards, the primary key still holds, and no
    write of the run failed (a failed write ends the command with an error
    and no count). *)
Theorem enqueue_count_reported (h : Host) (io_err : nat -> bool)
        (t : string) (scan_err : bool) (lines : list string) (db : table) :
  (forall db' count,
     doEnqueueCmd h io_err t scan_err lines db = (db', Ok count) ->
     count = Z.of_nat (length (accepted_lines h lines))
     /\ (forall p, In p (accepted_lines h lines) ->
                   exists r, In r db' /\ pk r = (pathHash h p, t))
     /\ (pk_unique db -> pk_unique db')
     /\ (forall k line p, nth_error lines k = Some line ->
                          accepted h line = Some p -> io_err k = false))
  /\ (exists db',
        Legacy.enqueueCmd h io_err t lines db
        = (db', Ok (Z.of_nat
                      (length (Legacy.counted_lines h io_err lines 0))))).
Proof.
  split.
  - intros db' count H. unfold doEnqueueCmd in H.
    destruct (enqueue_loop h io_err t lines 0 0 db) as [db1 [c|code msg]] eqn:E;
      [|discriminate].
    destruct scan_err; [discriminate|]. inversion H; subst.
    apply enqueue_loop_ok in E as (Hc & _ & Hrows & Hpk & Hio).
    split; [lia|]. split; [exact Hrows|]. split; [exact Hpk|].
    intros k line p Hk Hacc. exact (Hio k line p Hk Hacc).
  - unfold Legacy.enqueueCmd.
    pose proof (legacy_enqueue_loop_count h io_err t lines 0 0 db) as Hc.
    destruct (Legacy.enqueue_loop h io_err t lines 0 0 db) as [db1 c].
    simpl in Hc. exists db1. now rewrite Hc.
Qed.

(** C6 as stated fails on the input of the repository's own test: a
    location given twice is counted twice and stored once. *)
Lemma enqueue_count_differs_from_rows_stored :
  exists db' count,
    doEnqueueCmd demo_host no_io_err "lint" false
                 [""; "/missing.txt"; "/valid.txt"; "/valid.txt"] []
    = (db', Ok count)
    /\ Legacy.enqueueCmd demo_host no_io_err "lint"
                 [""; "/missing.txt"; "/valid.txt"; "/valid.txt"] []
       = (db', Ok count)
    /\ count = 2
    /\ length db' = 1%nat
    /\ count <> Z.of_nat (length db').
Proof.
  do 2 eexists. split; [reflexivity|]. split; [reflexivity|].
  split; [reflexivity|]. split; [reflexivity|]. discriminate.
Qed.

Lemma enqueue_count_reported_witness :
  exists db',
    doEnqueueCmd demo_host no_io_err "lint" false
                 [""; "/missing.txt"; "/valid.txt"; "/valid.txt"] []
    = (db', Ok 2)
    /\ 2 = Z.of_nat (length (accepted_lines demo_host
                 [""; "/missing.txt"; "/valid.txt"; "/valid.txt"]))
    /\ exists r, In r db' /\ pk r = ("h:/valid.txt", "lint").
Proof.
  destruct (enqueue_count_reported demo_host no_io_err "lint" false
              [""; "/missing.txt"; "/valid.txt"; "/valid.txt"] [])
    as [H _].
  eexists. split; [reflexivity|].
  destruct (H _ 2 eq_refl) as (Hc & Hrows & _).
  split; [exact Hc|]. apply (Hrows "/valid.txt"). simpl. auto.
Defined.

(* ------------------------------------------------------------------ *)
(** ** done *)

Lemma doneCmd_runs (h : Host) (goNow sqlNow : Z)
      (path_flag result_flag revisit t absPath : string) (db : table) :
  path_flag <> "" -> Abs h path_flag = Some absPath ->
  doneCmd h false goNow sqlNow path_flag result_flag revisit t db
  = (update_done (format_rfc3339 h goNow) result_flag
                 (if String.eqb revisit "" then None
                  else sqlite_datetime h sqlNow revisit)
                 (pathHash h absPath) t db,
     Ok tt).
Proof.
  intros Hp HAbs. unfold doneCmd.
  apply String.eqb_neq in Hp. now rewrite Hp, HAbs.
Qed.

(** The clock of [clock_host] on a leap day, at the end of a year, before
    the epoch and at the last instant SQLite renders. *)
Example clock_renders :
  go_rfc3339 0 = "1970-01-01T00:00:00Z"
  /\ go_rfc3339 1709251199 = "2024-02-29T23:59:59Z"
  /\ go_rfc3339 946684799 = "1999-12-31T23:59:59Z"
  /\ go_rfc3339 (-1) = "1969-12-31T23:59:59Z"
  /\ sqlite_text 951782400 = "2000-02-29 00:00:00"
  /\ sqlite_text 4107456000 = "2100-02-28 00:00:00"
  /\ sqlite_text 4107542400 = "2100-03-01 00:00:00"
  /\ sqlite_text (-2203891200) = "1900-03-01 00:00:00"
  /\ sqlite_text 1762599599 = "2025-11-08 10:59:59"
  /\ sqlite_text 4102444800 = "2100-01-01 00:00:00"
  /\ sqlite_text 5097686400 = "2131-07-17 00:00:00"
  /\ sqlite_text last_instant = "9999-12-31 23:59:59"
  /\ datetime_plus_days 951782400 "+14 days" = Some "2000-03-14 00:00:00"
  /\ datetime_plus_days 1762596000 "+365 days" = Some "2026-11-08 10:00:00"
  /\ datetime_plus_days (last_instant - 14 * 86400) "+14 days"
     = Some "9999-12-31 23:59:59"
  /\ datetime_plus_days (last_instant - 14 * 86400 + 1) "+14 days" = None
  /\ datetime_plus_days 1762596000 "+3000000 days" = None
  /\ datetime_plus_days 1762596000 "+14 days " = None
  /\ datetime_plus_days 1762596000 "+ days" = None
  /\ datetime_plus_days 1762596000 "a fortnight" = None.
Proof. repeat split; vm_compute; reflexivity. Qed.




(** C10: with a revisit that is not empty and for which DATETIME returns
    NULL, [doneCmd] still succeeds, and every row of the key has done_at and
    result set and next_at NULL. *)
Theorem doneCmd_invalid_revisit (h : Host) (goNow sqlNow : Z)
        (path_flag result_flag revisit t absPath : string) (db : table) :
  path_flag <> "" -> Abs h path_flag = Some absPath ->
  revisit <> "" -> sqlite_datetime h sqlNow revisit = None ->
  exists db',
    doneCmd h false goNow sqlNow path_flag result_flag revisit t db
    = (db', Ok tt)
    /\ (forall r, In r db -> pk r = (pathHash h absPath, t) ->
          In (mkRow (path r) (path_hash r) (content_hash r) (treatment r)
                    (Some (format_rfc3339 h goNow)) (Some result_flag) None)
             db')
    /\ (forall r', In r' db' -> pk r' = (pathHash h absPath, t) ->
          done_at r' = Some (format_rfc3339 h goNow)
          /\ result r' = Some result_flag
          /\ next_at r' = None).
Proof.
  intros Hp HAbs Hrev Hnull. eexists.
  split; [exact (doneCmd_runs h goNow sqlNow _ _ _ _ absPath db Hp HAbs)|].
  apply String.eqb_neq in Hrev. rewrite Hrev, Hnull.
  unfold update_done. split.
  - intros r Hr Hk. apply in_map_iff. exists r. split; [|exact Hr].
    now rewrite (proj2 (pk_matches_true _ _ _) Hk).
  - intros r' Hr' Hk'. apply in_map_iff in Hr' as [x [<- Hx]].
    destruct (pk_matches (pathHash h absPath) t x) eqn:Ex.
    + simpl. auto.
    + apply pk_matches_true in Hk'. congruence.
Qed.

Lemma doneCmd_invalid_revisit_witness :
  exists db',
    doneCmd demo_host false 1762596000 1762596000
            "/b.txt" "abc123" "a fortnight" "lint" demo_db = (db', Ok tt)
    /\ In (mkRow "/b.txt" "h:/b.txt" "c:/b.txt" "lint"
                 (Some "2025-11-08T10:00:00Z") (Some "abc123") None) db'.
Proof.
  destruct (doneCmd_invalid_revisit demo_host 1762596000 1762596000
              "/b.txt" "abc123" "a fortnight" "lint" "/b.txt" demo_db)
    as (db' & Hrun & Hrows & _).
  - discriminate.
  - reflexivity.
  - discriminate.
  - reflexivity.
  - exists db'. split; [exact Hrun|].
    apply (Hrows (mkRow "/b.txt" "h:/b.txt" "c:/b.txt" "lint"
                        None None None)); [simpl; auto | reflexivity].
Defined.

(* ------------------------------------------------------------------ *)
(** ** reset *)

Lemma filter_other_treatment (t t' : string) (db : table) :
  t' <> t ->
  filter (in_treatment t') (filter (fun r => negb (in_treatment t r)) db)
  = filter (in_treatment t') db.
Proof.
  intros Hne. induction db as [|x tl IH]; simpl; [reflexivity|].
  destruct (in_treatment t x) eqn:Et; simpl.
  - assert (E : in_treatment t' x = false).
    { unfold in_treatment in *. apply String.eqb_eq in Et.
      apply String.eqb_neq. congruence. }
    now rewrite E, IH.
  - now rewrite IH.
Qed.

(** C9: [resetCmd], given a treatment and confirmed, deletes the rows of
    that treatment and no other, leaves the rows of every other treatment as
    they were, and reports the number of rows deleted. *)
Theorem resetCmd_deletes_treatment (t response : string) (yes : bool)
        (db : table) :
  t <> "" -> yes = true \/ response = "y" \/ response = "Y" ->
  exists db' n,
    resetCmd false t yes response db = (db', Ok (Deleted n))
    /\ (forall r, In r db' <-> In r db /\ treatment r <> t)
    /\ (forall t', t' <> t ->
          filter (in_treatment t') db' = filter (in_treatment t') db)
    /\ n = Z.of_nat (length (filter (in_treatment t) db))
    /\ Z.of_nat (length db) = Z.of_nat (length db') + n.
Proof.
  intros Ht Hyes.
  exists (filter (fun r => negb (in_treatment t r)) db),
         (count_where (in_treatment t) db).
  split; [|split; [|split; [|split]]].
  - unfold resetCmd. apply String.eqb_neq in Ht. rewrite Ht.
    assert (E : negb yes && negb (String.eqb response "y"
                                  || String.eqb response "Y") = false).
    { destruct Hyes as [-> | [-> | ->]]; [reflexivity| |];
        destruct yes; reflexivity. }
    rewrite E. reflexivity.
  - intros r. rewrite filter_In. unfold in_treatment.
    rewrite negb_true_iff, String.eqb_neq. tauto.
  - intros t' Hne. now apply filter_other_treatment.
  - reflexivity.
  - unfold count_where.
    pose proof (filter_length (in_treatment t) db). lia.
Qed.

Lemma resetCmd_deletes_treatment_witness :
  exists db',
    resetCmd false "lint" true "" demo_db = (db', Ok (Deleted 4))
    /\ db' = [mkRow "/c.txt" "h:/c.txt" "c:/c.txt" "other" None None None].
Proof.
  assert (H1 : "lint" <> "") by discriminate.
  destruct (resetCmd_deletes_treatment "lint" "" true demo_db H1
              (or_introl eq_refl))
    as (db' & n & Hrun & _).
  exists db'. inversion Hrun; subst. split; reflexivity.
Defined.

(* ------------------------------------------------------------------ *)
(** ** status *)

(** C8 fails on the code: SQLite rejects the statement of [statusCmd],
    whose first ORDER BY term is no result column of the compound SELECT, and
    the command exits with a query error whatever the table holds. *)
Theorem statusCmd_query_error (io_err : bool) (filter_flag : string)
        (db : table) :
  statusCmd io_err filter_flag db
  = Exit 1 "query error: 1st ORDER BY term does not match any column in the result set".
Proof. reflexivity. Qed.

(** The rows the statement would return were it accepted, on the table of
    the repository's status test: one row for [lint], then the total. *)
Lemma status_rows_of_status_test :
  scan_status
    (status_rows "lint"
       [ mkRow "/pending.txt" "h1" "hash-pending" "lint" None None None;
         mkRow "/done.txt" "h2" "hash-done" "lint"
               (Some "2025-11-08T10:00:00Z") (Some "ok") None;
         mkRow "/other.txt" "h3" "hash-other" "other" None None None ])
  = [mkStatusResult "lint" 1 1; mkStatusResult "TOTAL" 1 1].
Proof. reflexivity. Qed.

(** The earlier [statusCmd] reports the treatments and no total row. *)
Lemma legacy_statusCmd_has_no_total :
  Legacy.statusCmd false "lint" demo_db
  = Ok [mkStatusResult "lint" 2 2].
Proof. reflexivity. Qed.

(** The earlier [enqueueCmd] ignores a location whose content changed: the
    row keeps its stale content hash and stays done. *)
Lemma legacy_enqueueCmd_ignores_change :
  Legacy.enqueueCmd demo_host no_io_err "lint" ["/a.txt"] demo_db
  = (demo_db, Ok 1).
Proof. reflexivity. Qed.

(* ------------------------------------------------------------------ *)
(** ** What every command keeps: the primary key, and hashes not empty *)

Lemma upsert_ledger_ok (absPath ph ch t : string) (db : table) :
  ph <> "" -> ledger_ok db -> ledger_ok (upsert absPath ph ch t db).
Proof.
  intros Hph [Hpk Hne]. split; [now apply upsert_pk_unique|].
  unfold upsert. destruct (existsb (pk_matches ph t) db).
  - apply Forall_forall. intros r Hr.
    apply in_map_iff in Hr as [x [<- Hx]].
    rewrite Forall_forall in Hne. specialize (Hne x Hx).
    now destruct (pk_matches ph t x).
  - apply Forall_app. split; [exact Hne|]. now repeat constructor.
Qed.

Lemma enqueue_loop_ledger_ok (h : Host) (io_err : nat -> bool) (t : string)
      (lines : list string) :
  (forall s, pathHash h s <> "") ->
  forall (k : nat) (count : Z) (db : table),
    ledger_ok db -> ledger_ok (fst (enqueue_loop h io_err t lines k count db)).
Proof.
  intros Hhash. induction lines as [|line rest IH]; intros k count db Hok;
    simpl; [exact Hok|].
  destruct (String.eqb line ""); [now apply IH|].
  destruct (Abs h line) as [absPath|]; [|now apply IH].
  destruct (fileHash h absPath) as [ch|]; [|now apply IH].
  destruct (io_err k); [exact Hok|].
  apply IH. now apply upsert_ledger_ok.
Qed.

Lemma doEnqueueCmd_ledger_ok (h : Host) (io_err : nat -> bool) (t : string)
      (scan_err : bool) (lines : list string) (db : table) :
  (forall s, pathHash h s <> "") ->
  ledger_ok db -> ledger_ok (fst (doEnqueueCmd h io_err t scan_err lines db)).
Proof.
  intros Hhash Hok. unfold doEnqueueCmd.
  pose proof (enqueue_loop_ledger_ok h io_err t lines Hhash 0 0 db Hok) as H.
  destruct (enqueue_loop h io_err t lines 0 0 db) as [db' [c|code msg]];
    [destruct scan_err|]; exact H.
Qed.

Lemma update_done_ledger_ok (now res : string) (nxt : option string)
      (ph t : string) (db : table) :
  ledger_ok db -> ledger_ok (update_done now res nxt ph t db).
Proof.
  intros [Hpk Hne]. unfold ledger_ok, pk_unique, update_done. split.
  - rewrite map_map. rewrite (map_ext _ pk); [exact Hpk|].
    intros r. now destruct (pk_matches ph t r).
  - apply Forall_forall. intros r Hr.
    apply in_map_iff in Hr as [x [<- Hx]].
    rewrite Forall_forall in Hne. specialize (Hne x Hx).
    now destruct (pk_matches ph t x).
Qed.

(** A selection of the rows of a table keeps the primary key. *)
Lemma pk_unique_filter (keep : Row -> bool) (db : table) :
  pk_unique db -> pk_unique (filter keep db).
Proof.
  unfold pk_unique. intros Hdb.
  induction db as [|row rest IH]; simpl; [constructor|].
  apply NoDup_cons_iff in Hdb as [Hfresh Hrest].
  destruct (keep row); simpl; [|now apply IH].
  apply NoDup_cons_iff. split; [|now apply IH].
  intros Hin. apply Hfresh.
  apply in_map_iff in Hin as [other [Hkey Hother]].
  apply filter_In in Hother as [Hother _].
  rewrite <- Hkey. now apply in_map.
Qed.

Lemma delete_treatment_ledger_ok (t : string) (db : table) :
  ledger_ok db -> ledger_ok (fst (delete_treatment t db)).
Proof.
  intros [Hpk Hne]. simpl. split.
  - now apply pk_unique_filter.
  - apply Forall_forall. intros r Hr. apply filter_In in Hr as [Hr _].
    rewrite Forall_forall in Hne. now apply Hne.
Qed.

(* ------------------------------------------------------------------ *)
(** ** The statements, evaluated on small tables *)

Example sql_limit_negative : sql_limit (-5) [1; 2; 3] = [1; 2; 3].
Proof. reflexivity. Qed.

Example sql_limit_zero : sql_limit 0 [1; 2; 3] = [].
Proof. reflexivity. Qed.

Example text_order_is_bytewise :
  text_ltb "" "a" = true /\ text_ltb "a" "ab" = true
  /\ text_ltb "B" "a" = true /\ text_ltb "10" "9" = true.
Proof. repeat split. Qed.

Example upsert_twice_is_one_row :
  upsert "/v" "h1" "c1" "lint" (upsert "/v" "h1" "c1" "lint" [])
  = [mkRow "/v" "h1" "c1" "lint" None None None].
Proof. reflexivity. Qed.

Example status_rows_of_empty_table : scan_status (status_rows "" []) = [].
Proof. reflexivity. Qed.

Example calculateShardRange_two_shards :
  calculateShardRange 0 2
  = ("0000000000000000000000000000000000000000000000000000000000000000",
     "8000000000000000000000000000000000000000000000000000000000000000")
  /\ calculateShardRange 1 2
     = ("8000000000000000000000000000000000000000000000000000000000000000",
        "ffffffffffffffff000000000000000000000000000000000000000000000000").
Proof. split; reflexivity. Qed.

(* ================================================================== *)
(** * Further properties of the commands *)

(* ------------------------------------------------------------------ *)
(** ** enqueue: a run is the UPSERTs of its accepted lines *)

Lemma content_of_accepted (h : Host) (line p : string) :
  accepted h line = Some p -> fileHash h p = Some (content_of h p).
Proof.
  intros H. apply accepted_inv in H as (_ & _ & ch & E).
  unfold content_of. now rewrite E.
Qed.

Lemma enqueue_loop_step_accepted (h : Host) (io_err : nat -> bool)
      (t line p : string) (rest : list string) (k : nat) (count : Z)
      (db : table) :
  accepted h line = Some p ->
  enqueue_loop h io_err t (line :: rest) k count db
  = if io_err k
    then (db, Exit 1 (String.append "insert failed for " p))
    else enqueue_loop h io_err t rest (S k) (count + 1)
           (upsert p (pathHash h p) (content_of h p) t db).
Proof.
  intros Ha. pose proof (content_of_accepted h line p Ha) as Hc.
  apply accepted_inv in Ha as (E1 & E2 & _).
  simpl. now rewrite E1, E2, Hc.
Qed.

Lemma enqueue_loop_step_skipped (h : Host) (io_err : nat -> bool)
      (t line : string) (rest : list string) (k : nat) (count : Z)
      (db : table) :
  accepted h line = None ->
  enqueue_loop h io_err t (line :: rest) k count db
  = enqueue_loop h io_err t rest (S k) count db.
Proof.
  intros Ha. simpl.
  apply accepted_none in Ha as [E | [E | [a [E1 E2]]]].
  - now rewrite E.
  - destruct (String.eqb line ""); [reflexivity | now rewrite E].
  - destruct (String.eqb line ""); [reflexivity | now rewrite E1, E2].
Qed.

(** The loop, run over a prefix in which no write fails, has performed the
    UPSERTs of the accepted lines of the prefix and counted them. *)
Lemma enqueue_loop_over_prefix (h : Host) (io_err : nat -> bool) (t : string)
      (pre rest : list string) :
  forall (k : nat) (count : Z) (db : table),
    (forall j line p, nth_error pre j = Some line ->
                      accepted h line = Some p ->
                      io_err (k + j)%nat = false) ->
    enqueue_loop h io_err t (pre ++ rest) k count db
    = enqueue_loop h io_err t rest (k + length pre)%nat
        (count + Z.of_nat (length (accepted_lines h pre)))
        (upsert_all h t (accepted_lines h pre) db).
Proof.
  induction pre as [|line pre IH]; intros k count db Hok.
  - simpl. rewrite Nat.add_0_r, Z.add_0_r. reflexivity.
  - change ((line :: pre) ++ rest) with (line :: (pre ++ rest)).
    assert (Hrest : forall j line' p, nth_error pre j = Some line' ->
                      accepted h line' = Some p ->
                      io_err (S k + j)%nat = false).
    { intros j line' p Hj Hacc.
      replace (S k + j)%nat with (k + S j)%nat by lia.
      apply (Hok (S j) line' p); assumption. }
    simpl accepted_lines. simpl length.
    replace (k + S (length pre))%nat with (S k + length pre)%nat by lia.
    destruct (accepted h line) as [p|] eqn:Ea.
    + rewrite (enqueue_loop_step_accepted h io_err t line p _ k count db Ea).
      assert (Hk : io_err k = false).
      { replace k with (k + 0)%nat by lia. apply (Hok 0%nat line p); auto. }
      rewrite Hk, (IH (S k) (count + 1) _ Hrest).
      simpl length. unfold upsert_all. simpl fold_left.
      f_equal. lia.
    + rewrite (enqueue_loop_step_skipped h io_err t line _ k count db Ea).
      apply (IH (S k) count db Hrest).
Qed.

(** X1: when no write fails, a run of [doEnqueueCmd] leaves the table that
    the UPSERTs of its accepted lines give, in input order, and reports
    their number: empty lines, lines with no absolute path and unreadable
    files change nothing. *)
Theorem enqueue_is_upserts_of_accepted (h : Host) (io_err : nat -> bool)
        (t : string) (lines : list string) (db : table) :
  no_failed_write h io_err lines ->
  doEnqueueCmd h io_err t false lines db
  = (upsert_all h t (accepted_lines h lines) db,
     Ok (Z.of_nat (length (accepted_lines h lines)))).
Proof.
  intros Hok. unfold doEnqueueCmd.
  rewrite <- (app_nil_r lines) at 1.
  rewrite (enqueue_loop_over_prefix h io_err t lines [] 0 0 db Hok).
  reflexivity.
Qed.

Lemma no_io_err_never_fails (h : Host) (lines : list string) :
  no_failed_write h no_io_err lines.
Proof. intros k line p _ _. reflexivity. Qed.

Lemma enqueue_is_upserts_of_accepted_witness :
  no_failed_write demo_host no_io_err
                  ["/a.txt"; ""; "/new.txt"; "/missing.txt"; "bad"; "/a.txt"]
  /\ accepted_lines demo_host
                    ["/a.txt"; ""; "/new.txt"; "/missing.txt"; "bad"; "/a.txt"]
     = ["/a.txt"; "/new.txt"; "/a.txt"]
  /\ doEnqueueCmd demo_host no_io_err "lint" false
                  ["/a.txt"; ""; "/new.txt"; "/missing.txt"; "bad"; "/a.txt"]
                  demo_db
     = (upsert "/a.txt" "h:/a.txt" "c:/a.txt" "lint"
          (upsert "/new.txt" "h:/new.txt" "c:/new.txt" "lint"
             (upsert "/a.txt" "h:/a.txt" "c:/a.txt" "lint" demo_db)),
        Ok 3)
  /\ In (mkRow "/a.txt" "h:/a.txt" "c:/a.txt" "lint" None None None)
        (fst (doEnqueueCmd demo_host no_io_err "lint" false
                ["/a.txt"; ""; "/new.txt"; "/missing.txt"; "bad"; "/a.txt"]
                demo_db))
  /\ In (mkRow "/new.txt" "h:/new.txt" "c:/new.txt" "lint" None None None)
        (fst (doEnqueueCmd demo_host no_io_err "lint" false
                ["/a.txt"; ""; "/new.txt"; "/missing.txt"; "bad"; "/a.txt"]
                demo_db)).
Proof.
  pose proof (enqueue_is_upserts_of_accepted demo_host no_io_err "lint"
                ["/a.txt"; ""; "/new.txt"; "/missing.txt"; "bad"; "/a.txt"]
                demo_db (no_io_err_never_fails demo_host _)) as Hrun.
  split; [apply no_io_err_never_fails|]. split; [reflexivity|].
  split; [exact Hrun|].
  rewrite Hrun. split; vm_compute; auto 10.
Defined.

(** X2: [doEnqueueCmd] stops at the first write that fails: the rows of the
    accepted lines before it are stored, nothing after it is, and the
    command ends with status 1 naming the path, without a count. *)
Theorem enqueue_stops_at_first_failed_write (h : Host) (io_err : nat -> bool)
        (t : string) (scan_err : bool) (pre post : list string)
        (line p : string) (db : table) :
  no_failed_write h io_err pre ->
  accepted h line = Some p ->
  io_err (length pre) = true ->
  doEnqueueCmd h io_err t scan_err (pre ++ line :: post) db
  = (upsert_all h t (accepted_lines h pre) db,
     Exit 1 (String.append "insert failed for " p)).
Proof.
  intros Hok Ha Hfail. unfold doEnqueueCmd.
  rewrite (enqueue_loop_over_prefix h io_err t pre (line :: post) 0 0 db Hok).
  rewrite (enqueue_loop_step_accepted h io_err t line p post _ _ _ Ha).
  simpl Nat.add. now rewrite Hfail.
Qed.

Lemma enqueue_stops_at_first_failed_write_witness :
  doEnqueueCmd demo_host (fun k => Nat.eqb k 1) "lint" false
               ["/new1.txt"; "/new2.txt"; "/new3.txt"] []
  = ([mkRow "/new1.txt" "h:/new1.txt" "c:/new1.txt" "lint" None None None],
     Exit 1 "insert failed for /new2.txt").
Proof.
  apply (enqueue_stops_at_first_failed_write demo_host
           (fun k => Nat.eqb k 1) "lint" false
           ["/new1.txt"] ["/new3.txt"] "/new2.txt" "/new2.txt" []).
  - intros [|[|k]] line p Hk Ha; try discriminate. reflexivity.
  - reflexivity.
  - reflexivity.
Defined.

(* ------------------------------------------------------------------ *)
(** ** enqueue: new locations, other treatments, the size of the table *)

Lemma existsb_pk_matches_false (ph t : string) (db : table) :
  (forall r, In r db -> pk r <> (ph, t)) ->
  existsb (pk_matches ph t) db = false.
Proof.
  intros Hnone. destruct (existsb (pk_matches ph t) db) eqn:E; [|reflexivity].
  apply existsb_exists in E as [r [Hr Hm]].
  apply pk_matches_true in Hm. now destruct (Hnone r Hr).
Qed.

(** X3: enqueueing a location that has no row under its key appends one
    pending row (absolute path, both hashes, the treatment, done_at, result
    and next_at NULL) and changes no other row; a later claim of the
    treatment with a cursor below the hash and a batch large enough
    returns it. *)
Theorem enqueue_inserts_new_location (h : Host) (io_err : nat -> bool)
        (t line absPath ch : string) (db : table) :
  line <> "" -> Abs h line = Some absPath -> fileHash h absPath = Some ch ->
  io_err 0%nat = false ->
  (forall r, In r db -> pk r <> (pathHash h absPath, t)) ->
  let item := mkRow absPath (pathHash h absPath) ch t None None None in
  doEnqueueCmd h io_err t false [line] db = (db ++ [item], Ok 1)
  /\ (forall cursor n,
        text_lt cursor (pathHash h absPath) ->
        n < 0 \/ Z.of_nat (length db) < n ->
        exists res, claimCmd false t cursor n (db ++ [item]) = Ok res
                    /\ In (scan_claim item) res).
Proof.
  intros Hline HAbs Hfile Hio Hnew item. split.
  - rewrite (doEnqueueCmd_one h io_err t line absPath ch db
               Hline HAbs Hfile Hio).
    unfold upsert. now rewrite (existsb_pk_matches_false _ _ _ Hnew).
  - intros cursor n Hc Hn. eexists. split; [reflexivity|].
    apply in_map. unfold claim_query. rewrite sql_limit_all.
    + apply (Permutation_in _ (Permutation_sym (order_by_perm path_hash _))).
      apply filter_In. split; [apply in_or_app; right; now left|].
      apply claim_where_true. simpl. auto.
    + destruct Hn as [Hn | Hn]; [now left | right].
      rewrite (Permutation_length (order_by_perm path_hash _)).
      pose proof (filter_length_le (claim_where t cursor) (db ++ [item])) as Hl.
      rewrite length_app in Hl. simpl in Hl. lia.
Qed.

Lemma enqueue_inserts_new_location_witness :
  doEnqueueCmd demo_host no_io_err "lint" false ["/new.txt"] demo_db
  = (demo_db ++ [mkRow "/new.txt" "h:/new.txt" "c:/new.txt" "lint"
                       None None None], Ok 1).
Proof.
  apply (enqueue_inserts_new_location demo_host no_io_err
           "lint" "/new.txt" "/new.txt" "c:/new.txt" demo_db);
    try reflexivity; try discriminate.
  intros r Hr. simpl in Hr.
  repeat (destruct Hr as [<- | Hr]; [discriminate|]). contradiction.
Defined.

Lemma upsert_other_treatment (absPath ph ch t t' : string) (db : table) :
  t' <> t ->
  filter (in_treatment t') (upsert absPath ph ch t db)
  = filter (in_treatment t') db.
Proof.
  intros Hne. unfold upsert.
  assert (Hnew : forall x, treatment x = t -> in_treatment t' x = false).
  { intros x Hx. unfold in_treatment. apply String.eqb_neq. congruence. }
  destruct (existsb (pk_matches ph t) db).
  - induction db as [|x tl IH]; simpl; [reflexivity|].
    destruct (pk_matches ph t x) eqn:Ex.
    + apply pk_matches_true in Ex.
      assert (Ht : treatment x = t) by (unfold pk in Ex; congruence).
      rewrite (Hnew x Ht), (Hnew (on_conflict_update absPath ch x) Ht).
      exact IH.
    + rewrite IH. reflexivity.
  - rewrite filter_app. simpl.
    rewrite (Hnew (mkRow absPath ph ch t None None None) eq_refl).
    apply app_nil_r.
Qed.

Lemma enqueue_loop_other_treatment (h : Host) (io_err : nat -> bool)
      (t t' : string) (lines : list string) :
  t' <> t ->
  forall (k : nat) (count : Z) (db : table),
    filter (in_treatment t') (fst (enqueue_loop h io_err t lines k count db))
    = filter (in_treatment t') db.
Proof.
  intros Hne. induction lines as [|line rest IH]; intros k count db;
    [reflexivity|].
  destruct (accepted h line) as [p|] eqn:Ea.
  - rewrite (enqueue_loop_step_accepted h io_err t line p rest k count db Ea).
    destruct (io_err k); [reflexivity|].
    rewrite IH. now apply upsert_other_treatment.
  - rewrite (enqueue_loop_step_skipped h io_err t line rest k count db Ea).
    apply IH.
Qed.

Lemma doEnqueueCmd_table (h : Host) (io_err : nat -> bool) (t : string)
      (scan_err : bool) (lines : list string) (db : table) :
  fst (doEnqueueCmd h io_err t scan_err lines db)
  = fst (enqueue_loop h io_err t lines 0 0 db).
Proof.
  unfold doEnqueueCmd.
  destruct (enqueue_loop h io_err t lines 0 0 db) as [db' [c|code msg]];
    [destruct scan_err|]; reflexivity.
Qed.

(** X4: a run of [doEnqueueCmd] for one treatment, whatever its input and
    however it ends, leaves the rows of every other treatment as they
    were. *)
Theorem enqueue_leaves_other_treatments (h : Host) (io_err : nat -> bool)
        (t t' : string) (scan_err : bool) (lines : list string)
        (db : table) :
  t' <> t ->
  filter (in_treatment t') (fst (doEnqueueCmd h io_err t scan_err lines db))
  = filter (in_treatment t') db.
Proof.
  intros Hne. rewrite doEnqueueCmd_table.
  now apply enqueue_loop_other_treatment.
Qed.

Lemma enqueue_leaves_other_treatments_witness :
  filter (in_treatment "other")
         (fst (doEnqueueCmd demo_host no_io_err "lint" false
                            ["/a.txt"; "/c.txt"; "/new.txt"] demo_db))
  = [mkRow "/c.txt" "h:/c.txt" "c:/c.txt" "other" None None None].
Proof.
  rewrite (enqueue_leaves_other_treatments demo_host no_io_err
             "lint" "other" false ["/a.txt"; "/c.txt"; "/new.txt"] demo_db).
  - reflexivity.
  - discriminate.
Defined.

Lemma upsert_rows_consistent (h : Host) (absPath ch t : string)
      (db : table) :
  rows_consistent h db ->
  rows_consistent h (upsert absPath (pathHash h absPath) ch t db).
Proof.
  unfold rows_consistent, upsert. intros Hdb.
  destruct (existsb (pk_matches (pathHash h absPath) t) db).
  - apply Forall_forall. intros r Hr.
    apply in_map_iff in Hr as [x [<- Hx]].
    rewrite Forall_forall in Hdb.
    destruct (pk_matches (pathHash h absPath) t x) eqn:Ex; [|now apply Hdb].
    apply pk_matches_true in Ex.
    assert (Hph : path_hash x = pathHash h absPath)
      by (unfold pk in Ex; congruence).
    simpl. exact Hph.
  - apply Forall_app. split; [exact Hdb|]. now repeat constructor.
Qed.

Lemma enqueue_loop_rows_consistent (h : Host) (io_err : nat -> bool)
      (t : string) (lines : list string) :
  forall (k : nat) (count : Z) (db : table),
    rows_consistent h db ->
    rows_consistent h (fst (enqueue_loop h io_err t lines k count db)).
Proof.
  induction lines as [|line rest IH]; intros k count db Hdb; [exact Hdb|].
  destruct (accepted h line) as [p|] eqn:Ea.
  - rewrite (enqueue_loop_step_accepted h io_err t line p rest k count db Ea).
    destruct (io_err k); [exact Hdb|].
    apply IH. now apply upsert_rows_consistent.
  - rewrite (enqueue_loop_step_skipped h io_err t line rest k count db Ea).
    now apply IH.
Qed.

(** X5: whatever its input and however it ends, a run of [doEnqueueCmd]
    keeps the primary key (one row per path hash and treatment), leaves no
    empty hash when [pathHash] yields none, and keeps every row's hash the
    hash of its path. *)
Theorem doEnqueueCmd_keeps_ledger (h : Host) (io_err : nat -> bool)
        (t : string) (scan_err : bool) (lines : list string) (db : table) :
  (forall s, pathHash h s <> "") ->
  ledger_ok db -> rows_consistent h db ->
  ledger_ok (fst (doEnqueueCmd h io_err t scan_err lines db))
  /\ rows_consistent h (fst (doEnqueueCmd h io_err t scan_err lines db)).
Proof.
  intros Hhash Hok Hcons. rewrite doEnqueueCmd_table. split.
  - now apply enqueue_loop_ledger_ok.
  - now apply enqueue_loop_rows_consistent.
Qed.

Lemma demo_pathHash_not_empty (s : string) : pathHash demo_host s <> "".
Proof. discriminate. Qed.

Lemma demo_db_rows_consistent : rows_consistent demo_host demo_db.
Proof. repeat constructor. Qed.

Lemma doEnqueueCmd_keeps_ledger_witness :
  ledger_ok (fst (doEnqueueCmd demo_host no_io_err "lint" false
                               ["/a.txt"; "/new.txt"; "/a.txt"] demo_db))
  /\ rows_consistent demo_host
       (fst (doEnqueueCmd demo_host no_io_err "lint" false
                          ["/a.txt"; "/new.txt"; "/a.txt"] demo_db)).
Proof.
  apply (doEnqueueCmd_keeps_ledger demo_host no_io_err "lint" false
           ["/a.txt"; "/new.txt"; "/a.txt"] demo_db).
  - exact demo_pathHash_not_empty.
  - split; [exact demo_db_pk_unique | exact demo_db_hashes_not_empty].
  - exact demo_db_rows_consistent.
Defined.

(* ------------------------------------------------------------------ *)
(** ** enqueue: running the same input again *)

Lemma upsert_stores (h : Host) (t p : string) (db : table) :
  stored_as h t p (upsert p (pathHash h p) (content_of h p) t db).
Proof.
  split.
  - destruct (upsert_has_key p (pathHash h p) (content_of h p) t db)
      as [r [Hr Hk]].
    exact (existsb_pk_matches _ _ _ r Hr Hk).
  - intros r Hr Hm. unfold upsert in Hr.
    destruct (existsb (pk_matches (pathHash h p) t) db) eqn:E.
    + apply in_map_iff in Hr as [x [<- Hx]].
      destruct (pk_matches (pathHash h p) t x) eqn:Ex; [now split|].
      congruence.
    + apply in_app_or in Hr as [Hr | [<- | []]]; [|now split].
      assert (existsb (pk_matches (pathHash h p) t) db = true)
        by (apply existsb_exists; eauto).
      congruence.
Qed.

Lemma pk_matches_two_keys (ph ph' t : string) (r : Row) :
  pk_matches ph t r = true -> pk_matches ph' t r = true -> ph = ph'.
Proof.
  intros H1 H2. apply pk_matches_true in H1, H2. congruence.
Qed.

Lemma upsert_keeps_stored (h : Host) (t p q : string) (db : table) :
  (forall a b, pathHash h a = pathHash h b -> a = b) ->
  stored_as h t p db ->
  stored_as h t p (upsert q (pathHash h q) (content_of h q) t db).
Proof.
  intros Hinj [Hex Hrows].
  destruct (string_dec (pathHash h q) (pathHash h p)) as [Heq | Hne].
  { rewrite (Hinj q p Heq). apply upsert_stores. }
  apply existsb_exists in Hex as [x [Hx Hxm]].
  assert (Hxq : pk_matches (pathHash h q) t x = false).
  { destruct (pk_matches (pathHash h q) t x) eqn:E; [|reflexivity].
    destruct Hne. exact (pk_matches_two_keys _ _ _ _ E Hxm). }
  unfold upsert.
  destruct (existsb (pk_matches (pathHash h q) t) db) eqn:E; split.
  - apply existsb_exists. exists x. split; [|exact Hxm].
    apply in_map_iff. exists x. split; [now rewrite Hxq | exact Hx].
  - intros r Hr Hm. apply in_map_iff in Hr as [y [<- Hy]].
    destruct (pk_matches (pathHash h q) t y) eqn:Ey; [|now apply Hrows].
    destruct Hne. apply (pk_matches_two_keys _ _ t y Ey).
    unfold pk_matches, on_conflict_update in *. exact Hm.
  - apply existsb_exists. exists x. split; [|exact Hxm].
    apply in_or_app. now left.
  - intros r Hr Hm. apply in_app_or in Hr as [Hr | [<- | []]];
      [now apply Hrows|].
    destruct Hne. unfold pk_matches in Hm. simpl in Hm.
    apply andb_true_iff in Hm as [Hm _]. now apply String.eqb_eq in Hm.
Qed.

Lemma upsert_all_stores (h : Host) (t : string) (paths : list string) :
  (forall a b, pathHash h a = pathHash h b -> a = b) ->
  forall (db : table) (p : string),
    In p paths \/ stored_as h t p db ->
    stored_as h t p (upsert_all h t paths db).
Proof.
  intros Hinj. induction paths as [|q qs IH]; intros db p Hp.
  - destruct Hp as [[] | Hp]. exact Hp.
  - unfold upsert_all. simpl fold_left. apply IH.
    destruct Hp as [[<- | Hp] | Hp].
    + right. apply upsert_stores.
    + now left.
    + right. now apply upsert_keeps_stored.
Qed.

Lemma upsert_when_stored (h : Host) (t p : string) (db : table) :
  stored_as h t p db ->
  upsert p (pathHash h p) (content_of h p) t db = db.
Proof.
  intros [Hex Hrows]. unfold upsert. rewrite Hex.
  rewrite <- (map_id db) at 2. apply map_ext_in. intros x Hx.
  destruct (pk_matches (pathHash h p) t x) eqn:Ex; [|reflexivity].
  destruct (Hrows x Hx Ex) as [Hp Hc]. clear Hrows Hex Hx Ex.
  unfold on_conflict_update. destruct x as [xp xh xc xt xd xr xn].
  simpl in *. rewrite Hc, String.eqb_refl, Hp. reflexivity.
Qed.

Lemma upsert_all_when_stored (h : Host) (t : string) (paths : list string)
      (db : table) :
  (forall p, In p paths -> stored_as h t p db) ->
  upsert_all h t paths db = db.
Proof.
  induction paths as [|q qs IH]; intros Hall; [reflexivity|].
  unfold upsert_all. simpl fold_left.
  rewrite (upsert_when_stored h t q db) by (apply Hall; now left).
  apply IH. intros p Hp. apply Hall. now right.
Qed.

(** X6: when [pathHash] has no collision and no write fails, running
    [doEnqueueCmd] again on the same input, the files unchanged, leaves the
    table exactly as the first run left it and reports the same count: a
    completed item stays completed. *)
Theorem enqueue_again_changes_nothing (h : Host) (io_err : nat -> bool)
        (t : string) (lines : list string) (db : table) :
  (forall a b, pathHash h a = pathHash h b -> a = b) ->
  no_failed_write h io_err lines ->
  doEnqueueCmd h io_err t false lines
               (fst (doEnqueueCmd h io_err t false lines db))
  = doEnqueueCmd h io_err t false lines db.
Proof.
  intros Hinj Hok.
  assert (Hrun : forall tbl,
             doEnqueueCmd h io_err t false lines tbl
             = (upsert_all h t (accepted_lines h lines) tbl,
                Ok (Z.of_nat (length (accepted_lines h lines))))).
  { intros tbl. unfold doEnqueueCmd.
    rewrite <- (app_nil_r lines) at 1.
    now rewrite (enqueue_loop_over_prefix h io_err t lines [] 0 0 tbl Hok). }
  rewrite (Hrun db). simpl fst. rewrite (Hrun _).
  f_equal. apply upsert_all_when_stored. intros p Hp.
  apply upsert_all_stores; [exact Hinj | now left].
Qed.

Lemma demo_pathHash_injective (a b : string) :
  pathHash demo_host a = pathHash demo_host b -> a = b.
Proof. simpl. intros H. now inversion H. Qed.

Lemma enqueue_again_changes_nothing_witness :
  doEnqueueCmd demo_host no_io_err "lint" false
               ["/e.txt"; "/a.txt"; ""; "/new.txt"; "/a.txt"]
               (fst (doEnqueueCmd demo_host no_io_err "lint" false
                       ["/e.txt"; "/a.txt"; ""; "/new.txt"; "/a.txt"]
                       demo_db))
  = doEnqueueCmd demo_host no_io_err "lint" false
                 ["/e.txt"; "/a.txt"; ""; "/new.txt"; "/a.txt"] demo_db.
Proof.
  apply (enqueue_again_changes_nothing demo_host no_io_err "lint"
           ["/e.txt"; "/a.txt"; ""; "/new.txt"; "/a.txt"] demo_db).
  - exact demo_pathHash_injective.
  - apply no_io_err_never_fails.
Defined.

(* ------------------------------------------------------------------ *)
(** ** enqueue: the count and the size of the table *)





Lemma legacy_enqueue_loop_appends (h : Host) (io_err : nat -> bool)
      (t : string) (lines : list string) :
  forall (k : nat) (count : Z) (db : table),
    exists added,
      fst (Legacy.enqueue_loop h io_err t lines k count db) = db ++ added
      /\ Forall (fun r => treatment r = t /\ done_at r = None
                          /\ result r = None /\ next_at r = None) added
      /\ Z.of_nat (length added)
         <= snd (Legacy.enqueue_loop h io_err t lines k count db) - count.
Proof.
  induction lines as [|line rest IH]; intros k count db.
  - exists []. simpl. rewrite app_nil_r. split; [reflexivity|].
    split; [constructor | lia].
  - simpl. destruct (String.eqb line ""); [apply IH|].
    destruct (Abs h line) as [a|]; [|apply IH].
    destruct (fileHash h a) as [ch|]; [|apply IH].
    destruct (io_err k); [apply IH|].
    unfold Legacy.insert_or_ignore.
    destruct (existsb _ db).
    + destruct (IH (S k) (count + 1) db) as (added & E & Hall & Hlen).
      exists added. split; [exact E|]. split; [exact Hall | lia].
    + destruct (IH (S k) (count + 1)
                   (db ++ [mkRow a (pathHash h a) ch t None None None]))
        as (added & E & Hall & Hlen).
      exists (mkRow a (pathHash h a) ch t None None None :: added).
      split; [rewrite E, <- app_assoc; reflexivity|].
      split; [constructor; [simpl; auto | exact Hall]|].
      simpl length. lia.
Qed.

(** X8: the earlier [enqueueCmd] (INSERT OR IGNORE) never changes or
    removes a stored row: the table after a run is the table before it
    followed by new pending rows of the treatment, no more of them than the
    count reported. *)
Theorem legacy_enqueue_only_appends (h : Host) (io_err : nat -> bool)
        (t : string) (lines : list string) (db : table) :
  exists added count,
    Legacy.enqueueCmd h io_err t lines db = (db ++ added, Ok count)
    /\ Forall (fun r => treatment r = t /\ done_at r = None
                        /\ result r = None /\ next_at r = None) added
    /\ Z.of_nat (length added) <= count.
Proof.
  destruct (legacy_enqueue_loop_appends h io_err t lines 0 0 db)
    as (added & E & Hall & Hlen).
  unfold Legacy.enqueueCmd.
  destruct (Legacy.enqueue_loop h io_err t lines 0 0 db) as [db' c].
  simpl in E, Hlen. subst db'.
  exists added, c. split; [reflexivity|]. split; [exact Hall | lia].
Qed.

(* ------------------------------------------------------------------ *)
(** ** done: unknown keys, claims after done, done again *)

(** X9: [doneCmd] on a location that has no row for the treatment is not
    an error: the command succeeds and the table is unchanged. *)
Theorem doneCmd_unknown_key_is_noop (h : Host) (goNow sqlNow : Z)
        (path_flag result_flag revisit t absPath : string) (db : table) :
  path_flag <> "" -> Abs h path_flag = Some absPath ->
  (forall r, In r db -> pk r <> (pathHash h absPath, t)) ->
  doneCmd h false goNow sqlNow path_flag result_flag revisit t db
  = (db, Ok tt).
Proof.
  intros Hp HAbs Hnone.
  rewrite (doneCmd_runs h goNow sqlNow _ _ _ _ absPath db Hp HAbs).
  f_equal. unfold update_done.
  rewrite <- (map_id db) at 2. apply map_ext_in. intros x Hx.
  destruct (pk_matches (pathHash h absPath) t x) eqn:Ex; [|reflexivity].
  apply pk_matches_true in Ex. now destruct (Hnone x Hx).
Qed.

Lemma doneCmd_unknown_key_is_noop_witness :
  doneCmd demo_host false 0 0 "/nowhere.txt" "abc" "+14 days" "lint" demo_db
  = (demo_db, Ok tt).
Proof.
  apply (doneCmd_unknown_key_is_noop demo_host 0 0
           "/nowhere.txt" "abc" "+14 days" "lint" "/nowhere.txt" demo_db).
  - discriminate.
  - reflexivity.
  - intros r Hr. simpl in Hr.
    repeat (destruct Hr as [<- | Hr]; [discriminate|]). contradiction.
Defined.

(** A claim of a treatment returns no hash whose rows are all done. *)
Lemma claim_skips_done_key (ph t cursor : string) (n : Z) (db : table)
      (res : list ClaimResult) :
  (forall r, In r db -> pk r = (ph, t) -> done_at r <> None) ->
  claimCmd false t cursor n db = Ok res ->
  Forall (fun cr => PathHash cr <> ph) res.
Proof.
  intros Hdone H. unfold claimCmd in H. injection H as <-.
  apply Forall_forall. intros cr Hcr Heq.
  apply in_map_iff in Hcr as [r [<- Hr]]. simpl in Heq.
  apply sql_limit_incl in Hr.
  apply (Permutation_in _ (order_by_perm path_hash _)) in Hr.
  apply filter_In in Hr as [Hr Hw].
  apply claim_where_true in Hw as (Ht & Hd & _).
  apply (Hdone r Hr); [unfold pk; congruence | exact Hd].
Qed.

Lemma update_done_marks_key (now res : string) (nxt : option string)
      (ph t : string) (db : table) (r : Row) :
  In r (update_done now res nxt ph t db) -> pk r = (ph, t) ->
  done_at r = Some now /\ result r = Some res /\ next_at r = nxt.
Proof.
  intros Hr Hk. unfold update_done in Hr.
  apply in_map_iff in Hr as [x [<- Hx]].
  destruct (pk_matches ph t x) eqn:Ex; [simpl; auto|].
  apply pk_matches_true in Hk. congruence.
Qed.

Lemma filter_claim_after_done (now res : string) (nxt : option string)
      (ph t t' cursor : string) (db : table) :
  filter (claim_where t' cursor) (update_done now res nxt ph t db)
  = filter (fun r => claim_where t' cursor r && negb (pk_matches ph t r)) db.
Proof.
  unfold update_done. induction db as [|x tl IH]; simpl; [reflexivity|].
  rewrite IH. destruct (pk_matches ph t x) eqn:Ex; simpl.
  - unfold claim_where at 1. simpl.
    rewrite andb_false_r, andb_false_r. reflexivity.
  - rewrite andb_true_r. reflexivity.
Qed.

(** X10: once [doneCmd] has run for a location, no claim of the treatment
    returns its hash, whatever the cursor and the batch size; an unlimited
    claim returns what it returned before without that hash, and the claims
    of every other treatment are unchanged. *)
Theorem done_item_not_claimed_again (h : Host) (goNow sqlNow : Z)
        (path_flag result_flag revisit t absPath : string) (db : table) :
  path_flag <> "" -> Abs h path_flag = Some absPath ->
  let db' := fst (doneCmd h false goNow sqlNow path_flag result_flag
                          revisit t db) in
  (forall cursor n res,
     claimCmd false t cursor n db' = Ok res ->
     Forall (fun cr => PathHash cr <> pathHash h absPath) res)
  /\ (forall cursor n, n < 0 ->
        claim_query t cursor n db'
        = filter (fun r => negb (String.eqb (path_hash r)
                                            (pathHash h absPath)))
                 (claim_query t cursor n db))
  /\ (forall t' cursor n, t' <> t ->
        claimCmd false t' cursor n db' = claimCmd false t' cursor n db).
Proof.
  intros Hp HAbs db'. unfold db'.
  rewrite (doneCmd_runs h goNow sqlNow _ _ _ _ absPath db Hp HAbs).
  simpl fst. set (ph := pathHash h absPath).
  split; [|split].
  - intros cursor n res H.
    eapply (claim_skips_done_key ph t cursor n); [|exact H].
    intros r Hr Hk.
    destruct (update_done_marks_key _ _ _ _ _ _ r Hr Hk) as [Hd _].
    congruence.
  - intros cursor n Hn. unfold claim_query.
    rewrite !sql_limit_all by (left; exact Hn).
    rewrite filter_claim_after_done.
    unfold order_by_path_hash. rewrite filter_order_by. f_equal.
    rewrite (filter_andb (claim_where t cursor)
                         (fun r => negb (pk_matches ph t r))).
    apply filter_ext_in. intros r Hr.
    apply filter_In in Hr as [_ Hw].
    apply claim_where_true in Hw as (Ht & _).
    unfold pk_matches. apply String.eqb_eq in Ht. rewrite Ht.
    now rewrite andb_true_r.
  - intros t' cursor n Hne. unfold claimCmd, claim_query.
    rewrite filter_claim_after_done. do 4 f_equal.
    apply filter_ext_in. intros r _.
    destruct (claim_where t' cursor r) eqn:Ew; [|reflexivity].
    apply claim_where_true in Ew as (Ht & _).
    unfold pk_matches.
    assert (E : String.eqb (treatment r) t = false)
      by (apply String.eqb_neq; congruence).
    rewrite E, andb_false_r. reflexivity.
Qed.

Lemma done_item_not_claimed_again_witness :
  claimCmd false "lint" "" (-1)
           (fst (doneCmd demo_host false 0 0 "/b.txt" "abc" "" "lint" demo_db))
  = Ok [mkClaimResult "/d.txt" "h:/d.txt"]
  /\ Forall (fun cr => PathHash cr <> "h:/b.txt")
            [mkClaimResult "/d.txt" "h:/d.txt"].
Proof.
  assert (H1 : "/b.txt" <> "") by discriminate.
  destruct (done_item_not_claimed_again demo_host 0 0
              "/b.txt" "abc" "" "lint" "/b.txt" demo_db H1 eq_refl)
    as (Hnever & _ & _).
  split; [reflexivity|].
  apply (Hnever "" (-1)). reflexivity.
Defined.

Lemma upsert_same_content_keeps_done (absPath ph ch t : string)
      (db : table) (r : Row) :
  (exists x, In x db /\ pk x = (ph, t)) ->
  (forall x, In x db -> pk x = (ph, t) ->
             content_hash x = ch /\ done_at x <> None) ->
  In r (upsert absPath ph ch t db) -> pk r = (ph, t) ->
  done_at r <> None.
Proof.
  intros [x0 [Hx0 Hk0]] Hall Hr Hk. unfold upsert in Hr.
  rewrite (existsb_pk_matches ph t db x0 Hx0 Hk0) in Hr.
  apply in_map_iff in Hr as [x [<- Hx]].
  destruct (pk_matches ph t x) eqn:Ex.
  - apply pk_matches_true in Ex. destruct (Hall x Hx Ex) as [Hc Hd].
    unfold on_conflict_update. simpl.
    apply String.eqb_eq in Hc. now rewrite Hc.
  - apply pk_matches_true in Hk. congruence.
Qed.

Lemma update_done_keeps_key (now res : string) (nxt : option string)
      (ph t : string) (db : table) (x : Row) :
  In x db -> pk x = (ph, t) ->
  exists y, In y (update_done now res nxt ph t db) /\ pk y = (ph, t).
Proof.
  intros Hx Hk. unfold update_done.
  eexists. split.
  - apply in_map_iff. exists x. split; [reflexivity | exact Hx].
  - simpl. now destruct (pk_matches ph t x).
Qed.

(** X11: when a location has a row whose content hash is the current one,
    marking it done and then enqueueing it again leaves it done: no claim
    of the treatment returns its hash afterwards. *)
Theorem done_survives_unchanged_enqueue (h : Host) (io_err : nat -> bool)
        (goNow sqlNow : Z) (line result_flag revisit t absPath ch : string)
        (db : table) :
  line <> "" -> Abs h line = Some absPath -> fileHash h absPath = Some ch ->
  io_err 0%nat = false ->
  (exists r, In r db /\ pk r = (pathHash h absPath, t)) ->
  (forall r, In r db -> pk r = (pathHash h absPath, t) ->
             content_hash r = ch) ->
  let marked := fst (doneCmd h false goNow sqlNow line result_flag
                             revisit t db) in
  let again := fst (doEnqueueCmd h io_err t false [line] marked) in
  (forall r, In r again -> pk r = (pathHash h absPath, t) ->
             done_at r <> None)
  /\ (forall cursor n res,
        claimCmd false t cursor n again = Ok res ->
        Forall (fun cr => PathHash cr <> pathHash h absPath) res).
Proof.
  intros Hline HAbs Hfile Hio [r0 [Hr0 Hk0]] Hsame marked again.
  unfold again, marked.
  rewrite (doneCmd_runs h goNow sqlNow _ _ _ _ absPath db Hline HAbs).
  simpl fst.
  rewrite (doEnqueueCmd_one h io_err t line absPath ch _ Hline HAbs Hfile Hio).
  simpl fst. set (ph := pathHash h absPath) in *.
  set (db1 := update_done _ _ _ ph t db).
  assert (Hdone : forall r, In r (upsert absPath ph ch t db1) ->
                            pk r = (ph, t) -> done_at r <> None).
  { intros r Hr Hk.
    apply (upsert_same_content_keeps_done absPath ph ch t db1 r);
      [| |exact Hr|exact Hk].
    - exact (update_done_keeps_key _ _ _ ph t db r0 Hr0 Hk0).
    - intros x Hx Hkx. unfold db1, update_done in Hx.
      apply in_map_iff in Hx as [y [<- Hy]].
      destruct (pk_matches ph t y) eqn:Ey.
      + simpl. split; [|discriminate].
        apply Hsame; [exact Hy | now apply pk_matches_true].
      + apply pk_matches_true in Hkx. congruence. }
  split; [exact Hdone|].
  intros cursor n res H.
  eapply (claim_skips_done_key ph t cursor n); [exact Hdone | exact H].
Qed.

Lemma done_survives_unchanged_enqueue_witness :
  claimCmd false "lint" "" (-1)
    (fst (doEnqueueCmd demo_host no_io_err "lint" false ["/b.txt"]
            (fst (doneCmd demo_host false 0 0 "/b.txt" "abc" "" "lint"
                          demo_db))))
  = Ok [mkClaimResult "/d.txt" "h:/d.txt"]
  /\ Forall (fun cr => PathHash cr <> "h:/b.txt")
            [mkClaimResult "/d.txt" "h:/d.txt"].
Proof.
  assert (H1 : "/b.txt" <> "") by discriminate.
  destruct (done_survives_unchanged_enqueue demo_host no_io_err 0 0
              "/b.txt" "abc" "" "lint" "/b.txt" "c:/b.txt" demo_db
              H1 eq_refl eq_refl eq_refl) as (_ & Hnever).
  - eexists. split; [left; reflexivity | reflexivity].
  - intros r Hr Hk. simpl in Hr.
    destruct Hr as [<- | Hr]; [reflexivity|].
    repeat (destruct Hr as [<- | Hr]; [discriminate|]). contradiction.
  - split; [reflexivity|]. apply (Hnever "" (-1)). reflexivity.
Defined.

(** X12: marking the same location done a second time overwrites the
    first mark: the table is the one a single run with the second result,
    revisit and instants gives. *)
Theorem doneCmd_again_overwrites (h : Host) (go1 sql1 go2 sql2 : Z)
        (path_flag result1 revisit1 result2 revisit2 t absPath : string)
        (db : table) :
  path_flag <> "" -> Abs h path_flag = Some absPath ->
  fst (doneCmd h false go2 sql2 path_flag result2 revisit2 t
               (fst (doneCmd h false go1 sql1 path_flag result1 revisit1 t
                             db)))
  = fst (doneCmd h false go2 sql2 path_flag result2 revisit2 t db).
Proof.
  intros Hp HAbs.
  rewrite !(doneCmd_runs h _ _ _ _ _ _ absPath _ Hp HAbs). simpl fst.
  unfold update_done. rewrite map_map. apply map_ext. intros x.
  destruct (pk_matches (pathHash h absPath) t x) eqn:Ex; [|now rewrite Ex].
  unfold pk_matches in *. simpl. now rewrite Ex.
Qed.

Lemma doneCmd_again_overwrites_witness :
  fst (doneCmd demo_host false 7 7 "/b.txt" "second" "" "lint"
         (fst (doneCmd demo_host false 3 3 "/b.txt" "first" "+14 days"
                       "lint" demo_db)))
  = fst (doneCmd demo_host false 7 7 "/b.txt" "second" "" "lint" demo_db).
Proof.
  apply (doneCmd_again_overwrites demo_host 3 3 7 7
           "/b.txt" "first" "+14 days" "second" "" "lint" "/b.txt" demo_db).
  - discriminate.
  - reflexivity.
Defined.

(** X13: on a table whose rows carry the hash of their path, and with a
    [pathHash] that has no collision, the earlier [doneCmd], which finds
    the row by its path, changes the table exactly as the current one,
    which finds it by the hash of the path. *)
Theorem legacy_doneCmd_same_table (h : Host) (goNow sqlNow : Z)
        (path_flag result_flag revisit t : string) (db : table) :
  (forall a b, pathHash h a = pathHash h b -> a = b) ->
  rows_consistent h db ->
  fst (Legacy.doneCmd h false goNow sqlNow path_flag result_flag revisit t db)
  = fst (doneCmd h false goNow sqlNow path_flag result_flag revisit t db).
Proof.
  intros Hinj Hcons. unfold Legacy.doneCmd, doneCmd.
  destruct (String.eqb path_flag ""); [reflexivity|].
  destruct (Abs h path_flag) as [absPath|]; [|reflexivity].
  simpl fst. unfold Legacy.update_done_by_path, update_done.
  apply map_ext_in. intros x Hx.
  unfold rows_consistent in Hcons. rewrite Forall_forall in Hcons.
  specialize (Hcons x Hx).
  assert (E : String.eqb (path x) absPath
              = String.eqb (path_hash x) (pathHash h absPath)).
  { destruct (String.eqb (path x) absPath) eqn:E1; symmetry.
    - apply String.eqb_eq in E1. apply String.eqb_eq. congruence.
    - apply String.eqb_neq in E1. apply String.eqb_neq.
      intros Heq. apply E1. apply Hinj. congruence. }
  unfold pk_matches. now rewrite E.
Qed.

Lemma legacy_doneCmd_same_table_witness :
  fst (Legacy.doneCmd demo_host false 0 0 "/b.txt" "abc" "" "lint" demo_db)
  = fst (doneCmd demo_host false 0 0 "/b.txt" "abc" "" "lint" demo_db).
Proof.
  apply (legacy_doneCmd_same_table demo_host 0 0 "/b.txt" "abc" "" "lint"
           demo_db).
  - exact demo_pathHash_injective.
  - exact demo_db_rows_consistent.
Defined.

(* ------------------------------------------------------------------ *)
(** ** claim: nothing is skipped, pages compose *)

(** X14: a claim never skips a row: a pending row of the treatment whose
    hash is above the cursor is either in the batch, or the batch is full
    ([n] items) and every hash in it is at or below the hash of that row. *)
Theorem claimCmd_never_skips (t cursor : string) (n : Z) (db : table)
        (res : list ClaimResult) (r : Row) :
  claimCmd false t cursor n db = Ok res ->
  In r db -> treatment r = t -> done_at r = None ->
  text_lt cursor (path_hash r) ->
  In (scan_claim r) res
  \/ (Z.of_nat (length res) = n
      /\ Forall (fun cr => text_le (PathHash cr) (path_hash r)) res).
Proof.
  intros H Hr Ht Hd Hc. unfold claimCmd in H. injection H as <-.
  unfold claim_query.
  set (L := order_by_path_hash (filter (claim_where t cursor) db)).
  assert (HrL : In r L).
  { apply (Permutation_in _ (Permutation_sym (order_by_perm path_hash _))).
    apply filter_In. split; [exact Hr|]. apply claim_where_true. auto. }
  assert (Hsorted : StronglySorted (key_le path_hash) L)
    by apply order_by_sorted.
  unfold sql_limit. destruct (n <? 0) eqn:En.
  - left. now apply in_map.
  - apply Z.ltb_ge in En.
    rewrite <- (firstn_skipn (Z.to_nat n) L) in HrL, Hsorted.
    apply in_app_or in HrL as [Hin | Hin]; [left; now apply in_map|].
    right. split.
    + rewrite length_map, length_firstn.
      assert (Z.to_nat n < length L)%nat; [|lia].
      destruct (Nat.lt_ge_cases (Z.to_nat n) (length L)) as [Hlt | Hge];
        [exact Hlt|].
      rewrite (skipn_all2 L Hge) in Hin. destruct Hin.
    + destruct (StronglySorted_app_inv _ _ _ Hsorted) as (_ & _ & Hcross).
      apply Forall_forall. intros cr Hcr.
      apply in_map_iff in Hcr as [x [<- Hx]]. simpl.
      exact (Hcross x r Hx Hin).
Qed.

Lemma claimCmd_never_skips_witness :
  In (mkClaimResult "/b.txt" "h:/b.txt")
     [mkClaimResult "/b.txt" "h:/b.txt"]
  \/ (Z.of_nat (length [mkClaimResult "/b.txt" "h:/b.txt"]) = 1
      /\ Forall (fun cr => text_le (PathHash cr) "h:/b.txt")
                [mkClaimResult "/b.txt" "h:/b.txt"]).
Proof.
  apply (claimCmd_never_skips "lint" "" 1 demo_db
           [mkClaimResult "/b.txt" "h:/b.txt"]
           (mkRow "/b.txt" "h:/b.txt" "c:/b.txt" "lint" None None None));
    try reflexivity.
  simpl. auto.
Defined.

Lemma pending_sorted_strictly (t : string) (db : table) :
  pk_unique db ->
  StronglySorted (key_lt path_hash) (order_by_path_hash (pending_of t db)).
Proof.
  intros Hpk. apply sorted_nodup_strict; [apply order_by_sorted|].
  eapply Permutation_NoDup;
    [apply Permutation_map, Permutation_sym, order_by_perm|].
  now apply pending_of_hashes_nodup.
Qed.

Lemma rows_after_cursor_sorted (cursor : string) (S : list Row) :
  StronglySorted (key_lt path_hash) S ->
  StronglySorted (key_lt path_hash)
                 (filter (fun r => text_ltb cursor (path_hash r)) S).
Proof.
  induction 1 as [|x tl Hs IH Hx]; simpl; [constructor|].
  destruct (text_ltb cursor (path_hash x)); [|exact IH].
  constructor; [exact IH|].
  apply Forall_forall. intros y Hy. apply filter_In in Hy as [Hy _].
  rewrite Forall_forall in Hx. now apply Hx.
Qed.

Lemma rows_after_later_cursor (c c' : string) (S : list Row) :
  text_lt c c' ->
  filter (fun r => text_ltb c' (path_hash r)) S
  = filter (fun r => text_ltb c' (path_hash r))
           (filter (fun r => text_ltb c (path_hash r)) S).
Proof.
  intros Hcc. rewrite <- filter_andb. apply filter_ext. intros r.
  destruct (text_ltb c' (path_hash r)) eqn:E; [|now rewrite andb_false_r].
  apply text_ltb_lt in E.
  assert (H : text_ltb c (path_hash r) = true)
    by (apply text_ltb_lt; eapply text_lt_trans; eassumption).
  now rewrite H.
Qed.

Lemma page_then_page (ka kb : nat) (L : list Row) :
  firstn (ka + kb) L = firstn ka L ++ firstn kb (skipn ka L).
Proof.
  revert L. induction ka as [|ka IH]; intros L; [reflexivity|].
  destruct L as [|x tl]; simpl.
  - now rewrite firstn_nil.
  - now rewrite IH.
Qed.

Lemma claim_query_pages (t cursor : string) (a b : Z) (db : table)
      (rb : Row) (Bm : list Row) :
  pk_unique db -> 0 < a -> 0 <= b ->
  claim_query t cursor a db = rb :: Bm ->
  claim_query t cursor (a + b) db
  = (rb :: Bm) ++ claim_query t (path_hash (last Bm rb)) b db.
Proof.
  intros Hpk Ha Hb Hpage.
  rewrite !claim_query_after_cursor in *.
  set (S := order_by_path_hash (pending_of t db)) in *.
  set (L := filter (fun r => text_ltb cursor (path_hash r)) S) in *.
  assert (HL : StronglySorted (key_lt path_hash) L)
    by (apply rows_after_cursor_sorted, pending_sorted_strictly, Hpk).
  unfold sql_limit in *.
  assert (Ea : (a <? 0) = false) by (apply Z.ltb_ge; lia).
  assert (Eb : (b <? 0) = false) by (apply Z.ltb_ge; lia).
  assert (Eab : (a + b <? 0) = false) by (apply Z.ltb_ge; lia).
  rewrite Ea in Hpage. rewrite Eab, Eb.
  rewrite Z2Nat.inj_add by lia. rewrite page_then_page, Hpage.
  f_equal.
  pose proof (firstn_skipn (Z.to_nat a) L) as Hsplit.
  rewrite Hpage in Hsplit.
  set (R := skipn (Z.to_nat a) L) in *.
  set (c' := path_hash (last Bm rb)).
  assert (HlastL : In (last Bm rb) L).
  { rewrite <- Hsplit. apply in_or_app. left. apply last_In. }
  assert (Hcc : text_lt cursor c').
  { apply filter_In in HlastL as [_ H]. now apply text_ltb_lt in H. }
  fold c'. rewrite (rows_after_later_cursor cursor c' S Hcc). fold L.
  rewrite <- Hsplit in HL |- *.
  destruct (StronglySorted_app_inv _ _ _ HL) as (HB & _ & Hcross).
  rewrite (filter_after_cursor c' (rb :: Bm) R); [reflexivity| |].
  - exact (strictly_sorted_le_last rb Bm HB).
  - apply Forall_forall. intros r Hr.
    apply (Hcross (last Bm rb) r); [apply last_In | exact Hr].
Qed.

(** X15: under the primary key, pages compose: when a claim of [a > 0]
    rows returns a batch that is not empty, a claim of [a + b] rows from the
    same cursor returns that batch followed by what a claim of [b] rows
    returns from the hash of the last row of the batch. *)
Theorem claim_pages_compose (t cursor : string) (a b : Z) (db : table)
        (first : ClaimResult) (more : list ClaimResult) :
  pk_unique db -> 0 < a -> 0 <= b ->
  claimCmd false t cursor a db = Ok (first :: more) ->
  exists rest,
    claimCmd false t (PathHash (last more first)) b db = Ok rest
    /\ claimCmd false t cursor (a + b) db = Ok ((first :: more) ++ rest).
Proof.
  intros Hpk Ha Hb H. unfold claimCmd in *. injection H as H.
  destruct (claim_query t cursor a db) as [|rb Bm] eqn:Hpage;
    [discriminate|].
  simpl in H. injection H as <- <-.
  eexists. split; [reflexivity|].
  rewrite (claim_query_pages t cursor a b db rb Bm Hpk Ha Hb Hpage).
  rewrite last_scan_claim, map_app. reflexivity.
Qed.

Lemma claim_pages_compose_witness :
  claimCmd false "lint" "" (1 + 1) demo_db
  = Ok ([mkClaimResult "/b.txt" "h:/b.txt"]
        ++ [mkClaimResult "/d.txt" "h:/d.txt"]).
Proof.
  assert (H1 : 0 < 1) by lia. assert (H2 : 0 <= 1) by lia.
  destruct (claim_pages_compose "lint" "" 1 1 demo_db
              (mkClaimResult "/b.txt" "h:/b.txt") []
              demo_db_pk_unique H1 H2 eq_refl)
    as (rest & Hrest & Hall).
  simpl in Hrest. injection Hrest as <-. exact Hall.
Defined.

(* ------------------------------------------------------------------ *)
(** ** reset, then claim or reset again *)

Lemma resetCmd_runs (t response : string) (yes : bool) (db : table) :
  t <> "" -> yes = true \/ response = "y" \/ response = "Y" ->
  resetCmd false t yes response db
  = (filter (fun r => negb (in_treatment t r)) db,
     Ok (Deleted (count_where (in_treatment t) db))).
Proof.
  intros Ht Hyes. unfold resetCmd.
  apply String.eqb_neq in Ht. rewrite Ht.
  assert (E : negb yes && negb (String.eqb response "y"
                                || String.eqb response "Y") = false).
  { destruct Hyes as [-> | [-> | ->]]; [reflexivity| |];
      destruct yes; reflexivity. }
  now rewrite E.
Qed.

Lemma claim_where_after_reset (t t' cursor : string) (db : table) :
  filter (claim_where t' cursor) (filter (fun r => negb (in_treatment t r)) db)
  = if String.eqb t' t then []
    else filter (claim_where t' cursor) db.
Proof.
  rewrite <- filter_andb.
  destruct (String.eqb t' t) eqn:E.
  - apply String.eqb_eq in E. subst t'.
    induction db as [|x tl IH]; simpl; [reflexivity|].
    rewrite IH. unfold claim_where, in_treatment.
    now destruct (String.eqb (treatment x) t).
  - apply String.eqb_neq in E. apply filter_ext. intros r.
    unfold claim_where, in_treatment.
    destruct (String.eqb (treatment r) t) eqn:Et; simpl; [|reflexivity].
    apply String.eqb_eq in Et.
    assert (E' : String.eqb (treatment r) t' = false)
      by (apply String.eqb_neq; congruence).
    now rewrite E'.
Qed.

(** X16: after a confirmed [resetCmd] of a treatment, every claim of that
    treatment returns nothing, a second reset deletes 0 rows and changes
    nothing, and the claims of every other treatment return what they
    returned before. *)
Theorem reset_leaves_nothing_to_claim (t response : string) (yes : bool)
        (db : table) :
  t <> "" -> yes = true \/ response = "y" \/ response = "Y" ->
  let db' := fst (resetCmd false t yes response db) in
  (forall cursor n, claimCmd false t cursor n db' = Ok [])
  /\ resetCmd false t yes response db' = (db', Ok (Deleted 0))
  /\ (forall t' cursor n, t' <> t ->
        claimCmd false t' cursor n db' = claimCmd false t' cursor n db).
Proof.
  intros Ht Hyes db'. unfold db'.
  rewrite (resetCmd_runs t response yes db Ht Hyes). simpl fst.
  split; [|split].
  - intros cursor n. unfold claimCmd, claim_query.
    rewrite claim_where_after_reset, String.eqb_refl. simpl.
    unfold sql_limit. destruct (n <? 0); [reflexivity|].
    now rewrite firstn_nil.
  - rewrite (resetCmd_runs t response yes _ Ht Hyes).
    assert (Hnone : filter (in_treatment t)
                           (filter (fun r => negb (in_treatment t r)) db)
                    = []).
    { rewrite <- filter_andb.
      induction db as [|x tl IH]; simpl; [reflexivity|].
      rewrite IH. now destruct (in_treatment t x). }
    unfold count_where. rewrite Hnone. simpl. f_equal.
    rewrite <- filter_andb. apply filter_ext. intros r.
    now destruct (in_treatment t r).
  - intros t' cursor n Hne. unfold claimCmd, claim_query.
    rewrite claim_where_after_reset.
    apply String.eqb_neq in Hne. now rewrite Hne.
Qed.

Lemma reset_leaves_nothing_to_claim_witness :
  claimCmd false "lint" "" (-1)
           (fst (resetCmd false "lint" true "" demo_db)) = Ok []
  /\ claimCmd false "other" "" (-1)
              (fst (resetCmd false "lint" true "" demo_db))
     = Ok [mkClaimResult "/c.txt" "h:/c.txt"].
Proof.
  assert (H1 : "lint" <> "") by discriminate.
  destruct (reset_leaves_nothing_to_claim "lint" "" true demo_db H1
              (or_introl eq_refl)) as (Hnone & _ & Hother).
  split; [apply Hnone|].
  rewrite Hother; [reflexivity | discriminate].
Defined.

(* ------------------------------------------------------------------ *)
(** ** status (the earlier query, GROUP BY treatment) *)

Lemma group_keys_in (l : table) (k : string) :
  In k (group_keys l) <-> exists r, In r l /\ treatment r = k.
Proof.
  unfold group_keys. split.
  - intros H. apply (Permutation_in _ (order_by_perm _ _)) in H.
    apply nodup_In, in_map_iff in H as [r [Hk Hr]]. eauto.
  - intros [r [Hr Hk]].
    apply (Permutation_in _ (Permutation_sym (order_by_perm _ _))).
    apply nodup_In, in_map_iff. eauto.
Qed.

Lemma group_keys_nodup (l : table) : NoDup (group_keys l).
Proof.
  unfold group_keys.
  apply (Permutation_NoDup (Permutation_sym (order_by_perm _ _))).
  apply NoDup_nodup.
Qed.

Lemma group_keys_ascending (l : table) :
  StronglySorted text_lt (group_keys l).
Proof.
  pose proof (sorted_nodup_strict (fun t : string => t) (group_keys l)) as H.
  rewrite map_id in H.
  apply H; [apply order_by_sorted | apply group_keys_nodup].
Qed.

Lemma legacy_status_entries (filter_flag : string) (db : table) :
  Legacy.statusCmd false filter_flag db
  = Ok (map (fun k =>
               mkStatusResult k
                 (count_where (fun r => in_treatment k r && pending r)
                              (status_selection filter_flag db))
                 (count_where (fun r => in_treatment k r && negb (pending r))
                              (status_selection filter_flag db)))
            (group_keys (status_selection filter_flag db))).
Proof.
  unfold Legacy.statusCmd, stats, status_selection. simpl.
  now rewrite map_map.
Qed.

Lemma count_in_selection (filter_flag k : string) (p : Row -> bool)
      (db : table) :
  (exists r, In r (status_selection filter_flag db) /\ treatment r = k) ->
  count_where (fun r => in_treatment k r && p r)
              (status_selection filter_flag db)
  = count_where (fun r => in_treatment k r && p r) db.
Proof.
  unfold status_selection, count_where.
  destruct (String.eqb filter_flag ""); [reflexivity|].
  intros [r0 [Hr0 Hk]]. apply filter_In in Hr0 as [_ Hf].
  unfold in_treatment in Hf. apply String.eqb_eq in Hf.
  assert (Hkf : k = filter_flag) by congruence. rewrite Hkf.
  rewrite <- filter_andb. do 2 f_equal.
  apply filter_ext. intros r.
  now destruct (in_treatment filter_flag r).
Qed.

Lemma selection_in (filter_flag : string) (db : table) (r : Row) :
  In r (status_selection filter_flag db)
  <-> In r db /\ (filter_flag = "" \/ treatment r = filter_flag).
Proof.
  unfold status_selection.
  destruct (String.eqb filter_flag "") eqn:E.
  - apply String.eqb_eq in E. tauto.
  - apply String.eqb_neq in E. rewrite filter_In.
    unfold in_treatment. rewrite String.eqb_eq. tauto.
Qed.

Lemma ascending_entries (g : string -> StatusResult) (ks : list string) :
  (forall k, Treatment (g k) = k) ->
  StronglySorted text_lt ks ->
  StronglySorted (key_lt Treatment) (map g ks).
Proof.
  intros Hg. induction 1 as [|k tl Hs IH Hk]; simpl; constructor;
    [exact IH|].
  apply Forall_forall. intros sr Hsr.
  apply in_map_iff in Hsr as [k' [<- Hk']].
  rewrite Forall_forall in Hk. unfold key_lt. rewrite !Hg. now apply Hk.
Qed.

(** X17: the earlier [statusCmd] reports one row per treatment that has a
    selected row and no other, in strictly ascending order of the treatment;
    the row gives the number of pending and of done rows of that treatment
    in the table, of which there is at least one; with [--treatment] only
    that treatment is reported, and an empty selection gives no row. *)
Theorem legacy_statusCmd_rows (filter_flag : string) (db : table)
        (res : list StatusResult) :
  Legacy.statusCmd false filter_flag db = Ok res ->
  StronglySorted (key_lt Treatment) res
  /\ (forall sr, In sr res ->
        (filter_flag = "" \/ Treatment sr = filter_flag)
        /\ Pending sr
           = count_where (fun r => in_treatment (Treatment sr) r && pending r)
                         db
        /\ Done sr
           = count_where (fun r => in_treatment (Treatment sr) r
                                   && negb (pending r)) db
        /\ 0 < Pending sr + Done sr)
  /\ (forall r, In r db ->
        filter_flag = "" \/ treatment r = filter_flag ->
        exists sr, In sr res /\ Treatment sr = treatment r).
Proof.
  rewrite legacy_status_entries. intros H. injection H as <-.
  set (sel := status_selection filter_flag db).
  split; [|split].
  - apply ascending_entries; [reflexivity | apply group_keys_ascending].
  - intros sr Hsr. apply in_map_iff in Hsr as [k [<- Hk]]. simpl.
    apply group_keys_in in Hk. pose proof Hk as [r [Hr Hrk]].
    rewrite !(count_in_selection filter_flag k _ db Hk).
    apply selection_in in Hr as [Hr Hf].
    split; [destruct Hf as [Hf | Hf]; [now left | right; congruence]|].
    split; [reflexivity|]. split; [reflexivity|].
    unfold count_where.
    destruct (pending r) eqn:Ep.
    + assert (In r (filter (fun x => in_treatment k x && pending x) db)).
      { apply filter_In. split; [exact Hr|].
        unfold in_treatment. rewrite Hrk, String.eqb_refl. exact Ep. }
      destruct (filter (fun x => in_treatment k x && pending x) db);
        [contradiction | simpl length; lia].
    + assert (In r (filter (fun x => in_treatment k x && negb (pending x))
                           db)).
      { apply filter_In. split; [exact Hr|].
        unfold in_treatment. rewrite Hrk, String.eqb_refl, Ep. reflexivity. }
      destruct (filter (fun x => in_treatment k x && negb (pending x)) db);
        [contradiction | simpl length; lia].
  - intros r Hr Hf. eexists. split.
    + apply in_map_iff. exists (treatment r). split; [reflexivity|].
      apply group_keys_in. exists r. split; [|reflexivity].
      apply selection_in. auto.
    + reflexivity.
Qed.

Lemma legacy_statusCmd_rows_witness :
  Legacy.statusCmd false "" demo_db
  = Ok [mkStatusResult "lint" 2 2; mkStatusResult "other" 1 0]
  /\ StronglySorted (key_lt Treatment)
       [mkStatusResult "lint" 2 2; mkStatusResult "other" 1 0].
Proof.
  split; [reflexivity|].
  apply (legacy_statusCmd_rows "" demo_db). reflexivity.
Defined.

Lemma count_pending_and_done (k : string) (l : table) :
  count_where (fun r => in_treatment k r && pending r) l
  + count_where (fun r => in_treatment k r && negb (pending r)) l
  = count_where (in_treatment k) l.
Proof.
  unfold count_where. induction l as [|x tl IH]; cbn [filter];
    [reflexivity|].
  destruct (in_treatment k x), (pending x); cbn [andb negb length];
    rewrite ?Nat2Z.inj_succ; lia.
Qed.

Lemma count_over_keys (ks : list string) (l : table) :
  NoDup ks ->
  fold_right (fun k acc => count_where (in_treatment k) l + acc) 0 ks
  = count_where (fun r => existsb (String.eqb (treatment r)) ks) l.
Proof.
  unfold count_where. induction 1 as [|k ks Hk Hks IH];
    cbn [fold_right existsb].
  - induction l as [|x tl IHl]; cbn [filter]; [reflexivity | exact IHl].
  - rewrite IH. clear IH.
    induction l as [|x tl IHl]; cbn [filter]; [reflexivity|].
    change (String.eqb (treatment x) k) with (in_treatment k x).
    destruct (in_treatment k x) eqn:E; cbn [orb].
    + unfold in_treatment in E. apply String.eqb_eq in E.
      assert (Ex : existsb (String.eqb (treatment x)) ks = false).
      { destruct (existsb (String.eqb (treatment x)) ks) eqn:Ee;
          [|reflexivity].
        apply existsb_exists in Ee as [k' [Hk' Hk'']].
        apply String.eqb_eq in Hk''. destruct Hk. congruence. }
      rewrite Ex. cbn [length]. rewrite !Nat2Z.inj_succ. lia.
    + destruct (existsb (String.eqb (treatment x)) ks); cbn [length];
        rewrite ?Nat2Z.inj_succ; lia.
Qed.

(** X18: the earlier [statusCmd] accounts for every selected row once: the
    pending and done numbers of its report add up to the number of rows of
    the table when [--treatment] is empty, and to the number of rows of
    that treatment otherwise. *)
Theorem legacy_statusCmd_accounts_for_rows (filter_flag : string)
        (db : table) (res : list StatusResult) :
  Legacy.statusCmd false filter_flag db = Ok res ->
  rows_reported res
  = Z.of_nat (length (status_selection filter_flag db)).
Proof.
  rewrite legacy_status_entries. intros H. injection H as <-.
  set (sel := status_selection filter_flag db).
  assert (Hsum : forall ks,
             rows_reported
               (map (fun k =>
                       mkStatusResult k
                         (count_where (fun r => in_treatment k r && pending r)
                                      sel)
                         (count_where (fun r => in_treatment k r
                                                && negb (pending r)) sel))
                    ks)
             = fold_right
                 (fun k acc => count_where (in_treatment k) sel + acc) 0 ks).
  { induction ks as [|k ks IH]; simpl; [reflexivity|].
    rewrite IH, count_pending_and_done. reflexivity. }
  rewrite Hsum, (count_over_keys _ sel (group_keys_nodup sel)).
  unfold count_where. do 2 f_equal.
  apply forallb_filter_id. apply forallb_forall. intros r Hr.
  apply existsb_exists. exists (treatment r).
  split; [|apply String.eqb_refl].
  apply group_keys_in. eauto.
Qed.

Lemma legacy_statusCmd_accounts_for_rows_witness :
  rows_reported [mkStatusResult "lint" 2 2; mkStatusResult "other" 1 0]
  = Z.of_nat (length (status_selection "" demo_db)).
Proof.
  apply (legacy_statusCmd_accounts_for_rows "" demo_db). reflexivity.
Defined.
